(** * neuclease: cleaving, hot-knife overlaps and label-volume utilities

    A shallow embedding of the analysis routines of [neuclease]
    ([cleave.py], [util.py], [util/segmentation.py], [focused/hotknife.py])
    and the properties stated about them.

    Conventions.
    - numpy arrays are lists; an [(E,2)] array is a list of pairs.
    - Labels (uint32 / uint64 values) are integers [Z]; where the source does
      arithmetic in a fixed width the wrap-around is written out ([wrap]).
    - Consecutive ids, which the source uses as array indices, are [nat].
    - A pandas DataFrame is the list of its rows, in row order.
    - A raised exception is the [Raise] case of [result].
    - [dvidutils.LabelMapper] is a finite map ([gmap]).

    Part I holds the definitions, Part II the lemmas and theorems. *)

From stdpp Require Import gmap list sorting strings.
From Stdlib Require QArith.

(** * Part I: definitions *)

(** ** Exceptions *)

Inductive exn : Set :=
| AssertionError
| ValueError
| KeyError
| IndexError
| RuntimeError.

Inductive result (A : Type) : Type :=
| Ok (a : A)
| Raise (e : exn).
Arguments Ok {A} a.
Arguments Raise {A} e.

#[global] Instance result_ret : MRet result := fun _ a => Ok a.
#[global] Instance result_bind : MBind result := fun _ _ f m =>
  match m with
  | Ok a => f a
  | Raise e => Raise e
  end.

(** [assert cond] *)
Definition assert (b : bool) : result unit :=
  if b then Ok tt else Raise AssertionError.

(** Run a fallible function over a sequence, left to right. *)
Fixpoint mapR {A B : Type} (f : A -> result B) (l : list A) : result (list B) :=
  match l with
  | [] => Ok []
  | x :: t => y ← f x; ys ← mapR f t; Ok (y :: ys)
  end.

Fixpoint foldR {A S : Type} (f : S -> A -> result S) (s : S) (l : list A) : result S :=
  match l with
  | [] => Ok s
  | x :: t => s' ← f s x; foldR f s' t
  end.

(** ** Fixed-width unsigned arithmetic *)

Definition wrap (bits : Z) (x : Z) : Z := (x mod 2 ^ bits)%Z.

(** ** pandas helpers *)

Section Pandas.
Context {A K : Type} `{EqDecision K} (key : A -> K).

(** [df.drop_duplicates(cols)] (keep='first'): the first row of every key
    stays, in row order. *)
Fixpoint drop_duplicates (l : list A) : list A :=
  match l with
  | [] => []
  | x :: t => x :: filter (fun y => key y <> key x) (drop_duplicates t)
  end.

(** [df.drop_duplicates(cols, keep='last')]: the last row of every key stays,
    in row order. *)
Fixpoint drop_duplicates_last (l : list A) : list A :=
  match l with
  | [] => []
  | x :: t =>
      if decide (key x ∈ key <$> t) then drop_duplicates_last t
      else x :: drop_duplicates_last t
  end.

(** [s.duplicated()]: the mask of the rows whose key occurred in an earlier
    row. *)
Fixpoint duplicated_from (seen : list K) (l : list A) : list bool :=
  match l with
  | [] => []
  | x :: t => bool_decide (key x ∈ seen) :: duplicated_from (key x :: seen) t
  end.
Definition duplicated (l : list A) : list bool := duplicated_from [] l.

(** [s.duplicated(keep=False)]: the mask of the rows whose key occurs in
    another row too. *)
Definition duplicated_all (l : list A) : list bool :=
  (fun x => bool_decide (1 < length (filter (fun y => key y = key x) l))) <$> l.

(** [df.groupby(cols).size()]: one entry per key, with the number of rows
    that carry it (keys in order of first appearance). *)
Definition groupby_size (l : list A) : list (K * nat) :=
  (fun x => (key x, length (filter (fun y => key y = key x) l)))
    <$> drop_duplicates l.

End Pandas.

(** [pd.unique(values)]: distinct values in order of first appearance. *)
Definition unique {A : Type} `{EqDecision A} (l : list A) : list A :=
  drop_duplicates id l.

(** ** dvidutils.LabelMapper *)

(** [LabelMapper(domain, codomain)]: the map is filled pair by pair, so the
    last pair of a repeated domain value is the one that stays. *)
Definition LabelMapper {K V : Type} `{Countable K}
    (domain : list K) (codomain : list V) : gmap K V :=
  list_to_map (reverse (zip domain codomain)).

(** [mapper.apply(a)] / [mapper.apply_inplace(a)] with
    [allow_unmapped=False]: a value outside the domain is an error. *)
Definition apply1 {K V : Type} `{Countable K} (mapper : gmap K V) (x : K) : result V :=
  match mapper !! x with
  | Some y => Ok y
  | None => Raise KeyError
  end.

Definition apply {K V : Type} `{Countable K} (mapper : gmap K V) (a : list K)
  : result (list V) :=
  mapR (apply1 mapper) a.

(** [mapper.apply(a, allow_unmapped=True)]: unmapped values pass through. *)
Definition apply_unmapped {K : Type} `{Countable K} (mapper : gmap K K) (a : list K)
  : list K :=
  (fun x => default x (mapper !! x)) <$> a.

(** * cleave.py *)

(** [CleaveResults = namedtuple("CleaveResults", "node_ids output_labels
    disconnected_components contains_unlabeled_components")] *)
Record CleaveResults : Type := CleaveResultsOf {
  node_ids : list Z;
  output_labels : list Z;
  disconnected_components : gset Z;
  contains_unlabeled_components : bool
}.

(** ** The edge table of [cleave] *)

(** [edges.sort(axis=1)]: every row of the (E,2) array is put in ascending
    order, in place. *)
Definition sort_row (e : Z * Z) : Z * Z :=
  if bool_decide (e.1 ≤ e.2)%Z then e else (e.2, e.1).

Definition sort_axis1 (edges : list (Z * Z)) : list (Z * Z) :=
  sort_row <$> edges.

Section EdgeTable.
Context {W : Type}.

(** A row of [edges_df], columns 'u', 'v', 'weight'. *)
Record edge_row : Type := EdgeRow { row_u : Z; row_v : Z; row_weight : W }.

Definition row_uv (r : edge_row) : Z * Z := (row_u r, row_v r).

(** [pd.DataFrame({'u': edges[:,0], 'v': edges[:,1], 'weight': edge_weights})]:
    columns of unequal length are refused. *)
Definition edges_DataFrame (edges : list (Z * Z)) (edge_weights : list W)
  : result (list edge_row) :=
  if decide (length edges = length edge_weights)
  then Ok (zip_with (fun e w => EdgeRow e.1 e.2 w) edges edge_weights)
  else Raise ValueError.

(** Lines 61-65 of [cleave], on the array whose rows are sorted already. *)
Definition clean_sorted_edges (edges : list (Z * Z)) (edge_weights : list W)
  : result (list edge_row) :=
  edges_df ← edges_DataFrame edges edge_weights;
  let edges_df := drop_duplicates_last row_uv edges_df in
  let edges_df := filter (fun r => row_u r <> row_v r) edges_df in
  Ok edges_df.

(** Lines 59-65 of [cleave]: "Clean the edges (normalized form, no
    duplicates, no loops)". *)
Definition clean_edges (edges : list (Z * Z)) (edge_weights : list W)
  : result (list edge_row) :=
  let edges := sort_axis1 edges in
  clean_sorted_edges edges edge_weights.

End EdgeTable.
Arguments edge_row W : clear implicits.

(** ** vigra.graphs.agglomerativeClustering *)

(** Edge weights are float32 values in the source.  The embedding keeps them
    abstract: all it needs is the comparison that selects the cheapest edge
    and the length-weighted mean that combines two parallel edges. *)
Class EdgeWeight (W : Type) : Type := {
  w_ltb : W -> W -> bool;
  w_mean : W -> positive -> W -> positive -> W
}.

(** Exact rational weights: [w_mean w1 l1 w2 l2 = (w1*l1 + w2*l2) / (l1+l2)]. *)
#[global] Instance EdgeWeight_Q : EdgeWeight QArith_base.Q := {|
  w_ltb a b := negb (QArith_base.Qle_bool b a);
  w_mean w1 l1 w2 l2 :=
    QArith_base.Qdiv
      (QArith_base.Qplus
         (QArith_base.Qmult w1 (QArith_base.inject_Z (Z.pos l1)))
         (QArith_base.Qmult w2 (QArith_base.inject_Z (Z.pos l2))))
      (QArith_base.inject_Z (Z.pos (l1 + l2)))
|}.

(** Connectivity through an edge list: the least equivalence relation that
    contains the edges. *)
Inductive conn {A : Type} (E : list (A * A)) : A -> A -> Prop :=
| conn_refl a : conn E a a
| conn_edge a b : (a, b) ∈ E -> conn E a b
| conn_sym a b : conn E a b -> conn E b a
| conn_trans a b c : conn E a b -> conn E b c -> conn E a c.

Section Agglomeration.
Context {W : Type} `{EdgeWeight W}.

(** An edge of the merge graph: its two end groups (named by their
    representative node), its current weight and its length (the number of
    input edges combined in it; every input edge has length 1). *)
Record medge : Type := MEdge { me_u : nat; me_v : nat; me_w : W; me_len : positive }.

(** The merge graph: the representative of every node, the seed label of
    every group (stored at its representative) and the remaining edges. *)
Record merge_graph : Type := MergeGraph {
  mg_repr : list nat;
  mg_label : list Z;
  mg_edges : list medge
}.

Definition node_label (g : merge_graph) (a : nat) : Z := default 0%Z (mg_label g !! a).

(** An edge may be contracted unless it joins two groups that carry
    different seed classes. *)
Definition contractible (g : merge_graph) (e : medge) : Prop :=
  node_label g (me_u e) = 0%Z ∨ node_label g (me_v e) = 0%Z
  ∨ node_label g (me_u e) = node_label g (me_v e).

#[global] Instance contractible_dec g e : Decision (contractible g e).
Proof. unfold contractible. apply _. Defined.

(** The cheapest edge, the earliest one among equals. *)
Fixpoint min_edge (l : list medge) : option medge :=
  match l with
  | [] => None
  | e :: t =>
      match min_edge t with
      | None => Some e
      | Some m => if w_ltb (me_w m) (me_w e) then Some m else Some e
      end
  end.

Definition redirect (b a x : nat) : nat := if decide (x = b) then a else x.

Definition redirect_edge (b a : nat) (e : medge) : medge :=
  MEdge (redirect b a (me_u e)) (redirect b a (me_v e)) (me_w e) (me_len e).

Definition same_ends (x e : medge) : Prop :=
  (me_u x = me_u e ∧ me_v x = me_v e) ∨ (me_u x = me_v e ∧ me_v x = me_u e).

#[global] Instance same_ends_dec x e : Decision (same_ends x e).
Proof. unfold same_ends. apply _. Defined.

(** Two parallel edges become one: weight the length-weighted mean, length
    the sum. *)
Definition combine_edges (x e : medge) : medge :=
  MEdge (me_u x) (me_v x)
        (w_mean (me_w x) (me_len x) (me_w e) (me_len e))
        (me_len x + me_len e).

Fixpoint add_parallel (e : medge) (acc : list medge) : list medge :=
  match acc with
  | [] => [e]
  | x :: t =>
      if decide (same_ends x e) then combine_edges x e :: t
      else x :: add_parallel e t
  end.

Definition merge_parallel (l : list medge) : list medge :=
  foldl (fun acc e => add_parallel e acc) [] l.

(** Contract edge [e]: the group of [me_v e] joins the group of [me_u e]. *)
Definition contract (e : medge) (g : merge_graph) : merge_graph :=
  let a := me_u e in
  let b := me_v e in
  MergeGraph
    (redirect b a <$> mg_repr g)
    (<[a := if decide (node_label g a = 0%Z) then node_label g b else node_label g a]>
       (mg_label g))
    (merge_parallel
       (filter (fun x => me_u x <> me_v x) (redirect_edge b a <$> mg_edges g))).

(** Number of nodes of the merge graph. *)
Definition nodeNum (g : merge_graph) : nat := length (remove_dups (mg_repr g)).

(** The clustering loop; every round removes at least one edge, so the
    number of input edges bounds the number of rounds. *)
Fixpoint agglomerate (rounds : nat) (nodeNumStop : nat) (g : merge_graph) : merge_graph :=
  match rounds with
  | 0 => g
  | S rounds =>
      if decide (nodeNum g ≤ nodeNumStop) then g
      else
        match min_edge (filter (contractible g) (mg_edges g)) with
        | None => g
        | Some e => agglomerate rounds nodeNumStop (contract e g)
        end
  end.

Definition initial_graph (edges : list (nat * nat)) (edgeWeights : list W)
    (nodeLabels : list Z) : merge_graph :=
  MergeGraph (seq 0 (length nodeLabels)) nodeLabels
             (zip_with (fun e w => MEdge e.1 e.2 w 1%positive) edges edgeWeights).

(** The unordered form of an edge. *)
Definition edge_ends (e : nat * nat) : nat * nat := (e.1 `min` e.2, e.1 `max` e.2).

(** What the clustering requires of its graph: the weights align with the
    edges, every end point is a node, no loops, no duplicate edges. *)
Definition graph_ok (n : nat) (edges : list (nat * nat)) (edgeWeights : list W) : Prop :=
  length edgeWeights = length edges
  ∧ Forall (fun e => e.1 < n ∧ e.2 < n ∧ e.1 <> e.2) edges
  ∧ NoDup (edge_ends <$> edges).

#[global] Instance graph_ok_dec n edges ws : Decision (graph_ok n edges ws).
Proof. unfold graph_ok. apply _. Defined.

(** Modelled from the spec: [vigra.graphs.agglomerativeClustering] on the
    graph that [agglomerative_clustering] builds ([AdjacencyListGraph] with
    nodes [0..N-1] and the cleaned edges), called with [beta=0.0] and
    [wardness=0.0].  vigra is not part of the repository; the model follows
    spec section 4.3: a greedy edge contraction that in every round takes the
    cheapest remaining contractible edge, merges its two end groups,
    combines the parallel edges this produces by their length-weighted mean,
    and goes on until [nodeNumStop] groups are left or no contractible edge
    is left.  With [beta=0] and [wardness=0] the weight of an edge never
    depends on node features or group sizes.  The result gives every node
    the representative of its group.  A graph that violates the
    preconditions is a failure. *)
Definition vg_agglomerativeClustering (edges : list (nat * nat)) (edgeWeights : list W)
    (nodeLabels : list Z) (nodeNumStop : nat) : result (list nat) :=
  if decide (graph_ok (length nodeLabels) edges edgeWeights)
  then Ok (mg_repr (agglomerate (length edges) nodeNumStop
                      (initial_graph edges edgeWeights nodeLabels)))
  else Raise RuntimeError.

(** ** agglomerative_clustering *)

(** [a.min()] of a numpy array: a zero-size array has no minimum. *)
Definition array_min (a : list nat) : result nat :=
  match a with
  | [] => Raise ValueError
  | x :: t => Ok (foldr Nat.min x t)
  end.

(** [edges.flat]: the entries of an (E,2) array in row-major order. *)
Definition flat {A : Type} (edges : list (A * A)) : list A :=
  edges ≫= fun e => [e.1; e.2].

(** [pd.DataFrame({'seed': seed_labels, 'agg': output_labels})] *)
Definition agg_DataFrame (seed_labels : list Z) (output_labels : list nat)
  : result (list (Z * nat)) :=
  if decide (length seed_labels = length output_labels)
  then Ok (zip seed_labels output_labels)
  else Raise ValueError.

(** Lines 216-246: relabel the clusters with the seed classes. *)
Definition relabel_clusters (seed_labels : list Z) (output_labels : list nat)
  : result (list Z * gset Z * bool) :=
  df ← agg_DataFrame seed_labels output_labels;
  let df := drop_duplicates id df in
  let seed_mapping_df := filter (fun r => r.1 <> 0%Z) df in
  let seed_component_counts := groupby_size fst seed_mapping_df in
  let disconnected_components : gset Z :=
    list_to_set (fst <$> filter (fun kc => 1 < kc.2) seed_component_counts) in
  let _seeded_agg_ids : gset nat := list_to_set (snd <$> seed_mapping_df) in
  let nonseeded_agg_ids := snd <$> filter (fun r => r.2 ∉ _seeded_agg_ids) df in
  let contains_unlabeled_components := bool_decide (0 < length nonseeded_agg_ids) in
  let agg_values := snd <$> seed_mapping_df in
  let seed_values := fst <$> seed_mapping_df in
  let '(agg_values, seed_values) :=
    if bool_decide (0 < length nonseeded_agg_ids)
    then (agg_values ++ nonseeded_agg_ids,
          seed_values ++ replicate (length nonseeded_agg_ids) 0%Z)
    else (agg_values, seed_values) in
  let mapper := LabelMapper agg_values seed_values in
  output_labels ← apply mapper output_labels;
  Ok (output_labels, disconnected_components, contains_unlabeled_components).

Definition agglomerative_clustering (cleaned_edges : list (nat * nat))
    (edge_weights : list W) (seed_labels : list Z) (num_classes : option nat)
  : result (list Z * gset Z * bool) :=
  _ ← assert (bool_decide (length edge_weights = length cleaned_edges));
  m ← array_min (flat cleaned_edges);
  _ ← assert (bool_decide (m < length seed_labels));
  let num_classes :=
    match num_classes with
    | Some k => k
    | None => length (filter (fun s => s <> 0%Z) (unique seed_labels))
    end in
  output_labels ← vg_agglomerativeClustering cleaned_edges edge_weights
                    seed_labels num_classes;
  relabel_clusters seed_labels output_labels.

(** ** cleave *)

(** The arrays and lists the caller passes to [cleave]; numpy arrays are
    passed by reference, so what [cleave] does to them in place is seen by
    the caller. *)
Record caller_data : Type := CallerData {
  c_edges : list (Z * Z);
  c_edge_weights : list W;
  c_seeds_dict : list (Z * list Z)
}.

(** [seed_labels[seed_nodes] = seed_class] *)
Definition stamp (seed_class : Z) (seed_nodes : list nat) (seed_labels : list Z)
  : list Z :=
  foldl (fun sl i => <[i := seed_class]> sl) seed_labels seed_nodes.

(** Lines 74-78.  [np.asarray(seed_nodes, dtype=np.uint64)] makes a new array
    from the caller's list, so [apply_inplace] does not touch the list. *)
Definition seed_label_array (mapper : gmap Z nat) (seeds_dict : list (Z * list Z))
    (n : nat) : result (list Z) :=
  foldR (fun seed_labels '(seed_class, seed_nodes) =>
           seed_nodes ← apply mapper seed_nodes;
           Ok (stamp seed_class seed_nodes seed_labels))
        (replicate n 0%Z) seeds_dict.

(** [cleave], together with the caller's data as the call leaves it. *)
Definition cleave_call (c : caller_data) (node_ids : option (list Z))
  : caller_data * result CleaveResults :=
  let node_ids :=
    match node_ids with
    | None => merge_sort Z.le (unique (flat (c_edges c)))
    | Some node_ids => node_ids
    end in
  (* edges.sort(axis=1) works on the caller's array *)
  let c := CallerData (sort_axis1 (c_edges c)) (c_edge_weights c) (c_seeds_dict c) in
  (c,
   edges_df ← clean_sorted_edges (c_edges c) (c_edge_weights c);
   let edges := row_uv <$> edges_df in
   let edge_weights := row_weight <$> edges_df in
   let cons_node_ids := seq 0 (length node_ids) in
   let mapper := LabelMapper node_ids cons_node_ids in
   cons_edges ← mapR (fun e => u ← apply1 mapper e.1; v ← apply1 mapper e.2; Ok (u, v))
                  edges;
   seed_labels ← seed_label_array mapper (c_seeds_dict c) (length cons_node_ids);
   '(output_labels, disconnected_components, contains_unlabeled_components) ←
     agglomerative_clustering cons_edges edge_weights seed_labels None;
   Ok (CleaveResultsOf node_ids output_labels disconnected_components
         contains_unlabeled_components)).

Definition cleave (edges : list (Z * Z)) (edge_weights : list W)
    (seeds_dict : list (Z * list Z)) (node_ids : option (list Z))
  : result CleaveResults :=
  (cleave_call (CallerData edges edge_weights seeds_dict) node_ids).2.

End Agglomeration.
Arguments medge W : clear implicits.
Arguments merge_graph W : clear implicits.
Arguments caller_data W : clear implicits.

(** ** Predicates used to state the properties of [cleave] *)

Section CleaveSpecs.
Context {W : Type} `{EdgeWeight W}.

(** Edge [e] joins the groups [a] and [b]. *)
Definition joins (e : medge W) (a b : nat) : Prop :=
  (me_u e = a ∧ me_v e = b) ∨ (me_u e = b ∧ me_v e = a).

(** The invariant of the loop, for the graph with edges [E] over the nodes
    [0 .. length seeds - 1] whose seed labels are [seeds]. *)
Record mg_inv (E : list (nat * nat)) (seeds : list Z) (g : merge_graph W) : Prop := {
  inv_repr_length : length (mg_repr g) = length seeds;
  inv_label_length : length (mg_label g) = length seeds;
  (* every node is connected to its representative *)
  inv_conn : ∀ i r, mg_repr g !! i = Some r -> conn E i r;
  (* every remaining edge joins two connected, different nodes *)
  inv_edges : ∀ e, e ∈ mg_edges g ->
    conn E (me_u e) (me_v e) ∧ me_u e <> me_v e
    ∧ me_u e < length seeds ∧ me_v e < length seeds;
  (* the label of a group is the seed class of its seeded members *)
  inv_label : ∀ i r s, mg_repr g !! i = Some r -> seeds !! i = Some s ->
    s <> 0%Z -> node_label g r = s;
  (* an input edge lies inside a group or is represented in the graph *)
  inv_cover : ∀ u v ru rv, (u, v) ∈ E ->
    mg_repr g !! u = Some ru -> mg_repr g !! v = Some rv ->
    ru = rv ∨ ∃ e, e ∈ mg_edges g ∧ joins e ru rv
}.

(** What the clustering guarantees about the cluster ids [agg] it returns. *)
Record cluster_spec (edges : list (nat * nat)) (seeds : list Z) (stop : nat)
    (agg : list nat) : Prop := {
  cs_length : length agg = length seeds;
  (* the nodes of a cluster are connected in the input graph *)
  cs_conn : ∀ i j r, agg !! i = Some r -> agg !! j = Some r -> conn edges i j;
  (* a cluster holds at most one seed class *)
  cs_seeds : ∀ i j r s s', agg !! i = Some r -> agg !! j = Some r ->
    seeds !! i = Some s -> seeds !! j = Some s' -> s <> 0%Z -> s' <> 0%Z -> s = s';
  (* an edge between two nodes of one seed class is contracted, unless the
     clustering stopped because few enough clusters were left *)
  cs_done : ∀ u v s, (u, v) ∈ edges ∨ (v, u) ∈ edges ->
    seeds !! u = Some s -> seeds !! v = Some s -> s <> 0%Z ->
    agg !! u = agg !! v ∨ length (remove_dups agg) ≤ stop
}.

(** What the cleaned table [rows] holds, for the input arrays [edges] and
    [ws]. *)
Record clean_spec (edges : list (Z * Z)) (ws : list W) (rows : list (edge_row W)) : Prop := {
  (* normalized form, no loops *)
  cl_sorted : ∀ r, r ∈ rows -> (row_u r < row_v r)%Z;
  (* no duplicates *)
  cl_NoDup : NoDup (row_uv <$> rows);
  (* a row is the last input edge that joins its two nodes, with its weight *)
  cl_last : ∀ r, r ∈ rows -> ∃ i e,
    edges !! i = Some e ∧ ws !! i = Some (row_weight r) ∧ sort_row e = row_uv r
    ∧ ∀ j e', i < j -> edges !! j = Some e' -> sort_row e' <> row_uv r;
  (* every input edge that is not a loop is represented *)
  cl_complete : ∀ e, e ∈ edges -> e.1 <> e.2 -> sort_row e ∈ row_uv <$> rows
}.

(** The call is well formed: the weights align with the edges, and the
    edges that are not loops and the seed lists name nodes of [ids] only. *)
Definition valid_call (edges : list (Z * Z)) (ws : list W)
    (seeds_dict : list (Z * list Z)) (ids : list Z) : Prop :=
  length ws = length edges
  ∧ (∀ e, e ∈ edges -> e.1 <> e.2 -> e.1 ∈ ids ∧ e.2 ∈ ids)
  ∧ (∀ c l x, (c, l) ∈ seeds_dict -> x ∈ l -> x ∈ ids).

End CleaveSpecs.

(** What the relabelling of the clusters yields, for a seed array and a
    cluster array of the same length. *)
Record relabel_spec (seeds : list Z) (agg : list nat)
    (out : list Z) (dc : gset Z) (cuc : bool) : Prop := {
  rs_length : length out = length agg;
  (* every node of a cluster gets a seed class found in the cluster *)
  rs_seeded : ∀ i a s, agg !! i = Some a -> out !! i = Some s -> s <> 0%Z ->
    ∃ j, agg !! j = Some a ∧ seeds !! j = Some s;
  rs_some : ∀ i a, agg !! i = Some a -> (∃ j s, agg !! j = Some a ∧ seeds !! j = Some s ∧ s <> 0%Z) ->
    ∃ s, out !! i = Some s ∧ s <> 0%Z;
  (* the nodes of a cluster without seed get 0 *)
  rs_unseeded : ∀ i a, agg !! i = Some a ->
    (∀ j, agg !! j = Some a -> seeds !! j = Some 0%Z) -> out !! i = Some 0%Z;
  (* a seed class found in two clusters is reported *)
  rs_disconnected : ∀ c, c ∈ dc ↔
    c <> 0%Z ∧ ∃ i j a a', seeds !! i = Some c ∧ seeds !! j = Some c
       ∧ agg !! i = Some a ∧ agg !! j = Some a' ∧ a <> a';
  (* a cluster without seed is reported *)
  rs_unlabeled : cuc = true ↔
    ∃ i a, agg !! i = Some a ∧ ∀ j, agg !! j = Some a -> seeds !! j = Some 0%Z
}.

(** The seed label of node [i] comes from a seed list that names the node
    mapped to [i]; and a node named in a seed list carries the class of one
    of the lists that name it. *)
Record seed_array_spec (mapper : gmap Z nat) (seeds_dict : list (Z * list Z))
    (init sl : list Z) : Prop := {
  sa_length : length sl = length init;
  sa_from : ∀ i s, sl !! i = Some s ->
    init !! i = Some s ∨ ∃ l x, (s, l) ∈ seeds_dict ∧ x ∈ l ∧ mapper !! x = Some i;
  sa_stamped : ∀ c l x i, (c, l) ∈ seeds_dict -> x ∈ l -> mapper !! x = Some i ->
    ∃ c' l' x', sl !! i = Some c' ∧ (c', l') ∈ seeds_dict ∧ x' ∈ l' ∧ mapper !! x' = Some i
}.

(** The number of seed classes, as [agglomerative_clustering] counts them. *)
Definition count_classes (seed_labels : list Z) : nat :=
  length (filter (fun s => s <> 0%Z) (unique seed_labels)).

(** The graph that [cleave] hands to the clustering, over the positions of
    [ids]: its edges are the input edges that are not loops. *)
Record cons_graph (ids : list Z) (edges : list (Z * Z))
    (cons_edges : list (nat * nat)) : Prop := {
  cg_sound : ∀ u v, (u, v) ∈ cons_edges ->
    ∃ x y, ids !! u = Some x ∧ ids !! v = Some y ∧ x <> y
           ∧ ((x, y) ∈ edges ∨ (y, x) ∈ edges);
  cg_complete : ∀ x y u v, (x, y) ∈ edges -> x <> y ->
    LabelMapper ids (seq 0 (length ids)) !! x = Some u ->
    LabelMapper ids (seq 0 (length ids)) !! y = Some v ->
    (u, v) ∈ cons_edges ∨ (v, u) ∈ cons_edges
}.

(** The node list that a call works with. *)
Definition effective_node_ids (edges : list (Z * Z)) (node_ids : option (list Z)) : list Z :=
  match node_ids with
  | None => merge_sort Z.le (unique (flat edges))
  | Some node_ids => node_ids
  end.

(** Edge [x]-[y] is in the edge list, in one of its two directions. *)
Definition has_edge (edges : list (Z * Z)) (x y : Z) : Prop :=
  (x, y) ∈ edges ∨ (y, x) ∈ edges.

(** ** Sample inputs *)

Definition weight_of (z : Z) : QArith_base.Q := QArith_base.inject_Z z.

(** Two triangles 10-20-30 and 40-50-60. *)
Definition triangles_edges : list (Z * Z) :=
  [(10, 20); (30, 20); (10, 30); (40, 50); (50, 60); (60, 40)]%Z.
Definition triangles_weights : list QArith_base.Q :=
  weight_of <$> [5; 3; 4; 1; 2; 7]%Z.
Definition triangles_seeds : list (Z * list Z) :=
  [(1, [10; 20; 30]); (2, [40; 50; 60])]%Z.


(** * Connected components of graphs and label arrays *)

(** ** Component labelling by merging along the edges *)

(** One edge: the nodes that carry the label of its second end take the
    label of its first end. *)
Definition union_edge (lab : list nat) (e : nat * nat) : list nat :=
  match lab !! e.1, lab !! e.2 with
  | Some a, Some b => redirect b a <$> lab
  | _, _ => lab
  end.

(** Every node starts with its own label; the edges are merged one by one. *)
Definition flood (n : nat) (edges : list (nat * nat)) : list nat :=
  foldl union_edge (seq 0 n) edges.

(** Position of the first [x] in [l]. *)
Fixpoint index_of {A : Type} `{EqDecision A} (x : A) (l : list A) : nat :=
  match l with
  | [] => 0
  | y :: t => if decide (y = x) then 0 else S (index_of x t)
  end.

(** ** numpy arrays of labels *)

Inductive dtype : Set := uint8 | uint32 | uint64 | int64 | float32.

Definition dtype_bits (d : dtype) : Z :=
  match d with
  | uint8 => 8
  | uint32 | float32 => 32
  | uint64 | int64 => 64
  end.

(** An N-dimensional array: element type, shape and the elements in
    row-major (C) order, as [a.flat] lists them. *)
Record ndarray : Type := NdArray {
  arr_dtype : dtype;
  arr_shape : list nat;
  arr_flat : list Z
}.

Definition shape_size (shape : list nat) : nat := foldr Nat.mul 1 shape.

(** The pairs of flat indices of face-adjacent elements: along an axis of
    extent [d] whose elements are [inner] apart, element [i] has coordinate
    [(i / inner) mod d]. *)
Fixpoint face_pairs_from (outer : nat) (shape : list nat) : list (nat * nat) :=
  match shape with
  | [] => []
  | d :: t =>
      let inner := shape_size t in
      filter (fun e => (e.1 / inner) mod d + 1 < d)
             ((fun i => (i, i + inner)) <$> seq 0 (outer * d * inner))
      ++ face_pairs_from (outer * d) t
  end.

Definition face_pairs (shape : list nat) : list (nat * nat) :=
  face_pairs_from 1 shape.

(** Two adjacent elements belong to one object when they carry the same
    label and the label is not the background 0. *)
Definition same_object (data : list Z) (e : nat * nat) : Prop :=
  match data !! e.1, data !! e.2 with
  | Some a, Some b => a = b ∧ a <> 0%Z
  | _, _ => False
  end.

#[global] Instance same_object_dec data e : Decision (same_object data e).
Proof. unfold same_object. repeat case_match; apply _. Defined.

(** The adjacency graph of the objects of a label array. *)
Definition object_edges (shape : list nat) (data : list Z) : list (nat * nat) :=
  filter (same_object data) (face_pairs shape).

(** Modelled from the spec: the labelling of the connected foreground
    regions of a label array that [vigra.analysis.labelMultiArrayWithBackground]
    and [skimage.measure.label(background=0, connectivity=1)] compute; both
    libraries are outside the repository.  Spec 4.2 and the glossary:
    maximal sets of same-label, face-adjacent elements (4-connectivity in 2D,
    6-connectivity in 3D); the background 0 is not labelled and stays 0; the
    regions are numbered 1, 2, ... in the order in which a scan in
    row-major order meets them. *)
Definition label_regions (shape : list nat) (data : list Z) : list nat :=
  let lab := flood (length data) (object_edges shape data) in
  let px := zip data lab in
  let ids := unique (snd <$> filter (fun p => p.1 <> 0%Z) px) in
  (fun p => if decide (p.1 = 0%Z) then 0 else S (index_of p.2 ids)) <$> px.

(** Modelled from the spec: [vigra.analysis.relabelConsecutive(img, out=img32)]
    with its defaults [start_label=1, keep_zeros=True]: the labels are
    replaced by 1, 2, ... (0 stays 0), distinct labels stay distinct. *)
Definition relabelConsecutive (data : list Z) : list Z :=
  let ids := unique (filter (fun v => v <> 0%Z) data) in
  (fun v => if decide (v = 0%Z) then 0%Z
            else Z.of_nat (S (index_of v ids))) <$> data.

(** * util/segmentation.py *)

(** ** compute_cc *)

(** [a[a != 0] += np.uint32(k)] on a uint32 array. *)
Definition shift_nonzero (k : Z) (c : Z) : Z :=
  if decide (c = 0%Z) then c else wrap 32 (c + wrap 32 k).

(** [compute_cc(img, min_component)]: the connected components image and
    the Series [cc_mapping], given as the list of its (index, value) pairs,
    that is (CC label, original label). *)
Definition compute_cc (img : ndarray) (min_component : Z)
  : result (list Z * list (Z * Z)) :=
  _ ← assert (bool_decide (0 < min_component)%Z);
  img_cc ← match arr_dtype img with
           | uint8 | uint32 =>
               Ok (Z.of_nat <$> label_regions (arr_shape img) (arr_flat img))
           | uint64 =>
               let img32 := relabelConsecutive (arr_flat img) in
               Ok (Z.of_nat <$> label_regions (arr_shape img) img32)
           | _ => Raise AssertionError
           end;
  (* rows (orig, cc) *)
  let cc_mapping_df := zip (arr_flat img) img_cc in
  let cc_mapping_df := drop_duplicates id cc_mapping_df in
  let '(img_cc, cc_mapping_df) :=
    if bool_decide (1 < min_component)%Z
    then (shift_nonzero (min_component - 1) <$> img_cc,
          (fun r => (r.1, shift_nonzero (min_component - 1) r.2)) <$> cc_mapping_df)
    else (img_cc, cc_mapping_df) in
  let cc_mapping := (fun r => (r.2, r.1)) <$> cc_mapping_df in
  Ok (img_cc, cc_mapping).

(** ** Predicates used to state the properties of the labellings *)

(** What the region labelling [cc] of a label array is. *)
Record regions_spec (shape : list nat) (data : list Z) (cc : list nat) : Prop := {
  rg_length : length cc = length data;
  (* the background, and nothing else, is labelled 0 *)
  rg_background : ∀ i, cc !! i = Some 0 ↔ data !! i = Some 0%Z;
  (* two elements have one region label exactly when a path of
     face-adjacent elements of one label joins them *)
  rg_regions : ∀ i j c, cc !! i = Some c -> c <> 0 ->
    (cc !! j = Some c ↔ conn (object_edges shape data) i j);
  (* the region labels are 1 .. K without gap *)
  rg_consecutive : ∃ K, ∀ c, 0 < c -> (c ∈ cc ↔ c ≤ K)
}.

(** * util.py *)

(** ** uuids_match *)

(** A Python [str] is the sequence of its characters.  [assert uuid1 and
    uuid2] refuses the empty string. *)
Definition uuids_match (uuid1 uuid2 : list Ascii.ascii) : result bool :=
  _ ← assert (bool_decide (uuid1 <> [] ∧ uuid2 <> []));
  let '(uuid1, uuid2) :=
    if bool_decide (length uuid2 < length uuid1)
    then (uuid2, uuid1) else (uuid1, uuid2) in
  let uuid2 := take (length uuid1) uuid2 in
  Ok (bool_decide (uuid2 = uuid1)).

(** ** round_coord, round_box *)

(** [round_coord] on one coordinate; [//] is floor division, which is
    [Z.div].  [how] is the string the caller passes. *)
Definition round_coord (coord grid_spacing : Z) (how : String.string) : result Z :=
  _ ← assert (bool_decide (how = "down"%string ∨ how = "up"%string));
  if bool_decide (how = "down"%string)
  then Ok ((coord / grid_spacing) * grid_spacing)%Z
  else Ok (((coord + grid_spacing - 1) / grid_spacing) * grid_spacing)%Z.

(** The table [directions] of [round_box]. *)
Definition directions (how : String.string) : option (String.string * String.string) :=
  if bool_decide (how = "out"%string) then Some ("down", "up")%string
  else if bool_decide (how = "in"%string) then Some ("up", "down")%string
  else if bool_decide (how = "down"%string) then Some ("down", "down")%string
  else if bool_decide (how = "up"%string) then Some ("up", "up")%string
  else None.

(** [round_box(box, grid_spacing, how)] for a box [(start, stop)] of
    coordinate arrays and an integer grid spacing; numpy applies
    [round_coord] to every coordinate. *)
Definition round_box (box : list Z * list Z) (grid_spacing : Z) (how : String.string)
  : result (list Z * list Z) :=
  match directions how with
  | None => Raise AssertionError
  | Some (how0, how1) =>
      start ← mapR (fun c => round_coord c grid_spacing how0) box.1;
      stop ← mapR (fun c => round_coord c grid_spacing how1) box.2;
      Ok (start, stop)
  end.

(** * Part II: properties *)

(** ** pandas helpers *)

Section PandasFacts.
Context {A K : Type} `{EqDecision K} (key : A -> K).

Lemma drop_duplicates_last_subseteq l : drop_duplicates_last key l ⊆ l.
Proof.
  induction l as [|x t IH]; simpl; [done|].
  intros y Hy. case_decide.
  - right. by apply IH.
  - apply elem_of_cons in Hy as [->|Hy]; [by left|right; by apply IH].
Qed.

Lemma drop_duplicates_last_keys l x :
  x ∈ l -> key x ∈ key <$> drop_duplicates_last key l.
Proof.
  revert x. induction l as [|y t IH]; intros x; simpl; [by intros ?%elem_of_nil|].
  intros [->|Hx]%elem_of_cons.
  - case_decide as Hd.
    + apply list_elem_of_fmap in Hd as (z & Hz & Hin). rewrite Hz. by apply IH.
    + rewrite fmap_cons. by left.
  - case_decide; [by apply IH|]. rewrite fmap_cons. right. by apply IH.
Qed.

Lemma drop_duplicates_last_NoDup l : NoDup (key <$> drop_duplicates_last key l).
Proof.
  induction l as [|x t IH]; simpl; [constructor|].
  case_decide as Hd; [done|].
  rewrite fmap_cons. constructor; [|done].
  intros Hin. apply Hd.
  apply list_elem_of_fmap in Hin as (z & Hz & Hin).
  apply list_elem_of_fmap. exists z. split; [done|].
  by apply drop_duplicates_last_subseteq.
Qed.

(** The row kept for a key is the last row of the table with that key. *)
Lemma drop_duplicates_last_is_last l x :
  x ∈ drop_duplicates_last key l ->
  ∃ l1 l2, l = l1 ++ x :: l2 ∧ key x ∉ key <$> l2.
Proof.
  induction l as [|y t IH]; simpl; [by intros ?%elem_of_nil|].
  case_decide as Hd.
  - intros (l1 & l2 & -> & Hl)%IH. by exists (y :: l1), l2.
  - intros [->|Hx]%elem_of_cons.
    + by exists [], t.
    + apply IH in Hx as (l1 & l2 & -> & Hl). by exists (y :: l1), l2.
Qed.

End PandasFacts.

(** ** Connectivity *)

Section ConnFacts.
Context {A : Type}.
Implicit Types E : list (A * A).

Lemma conn_mono E E' a b : E ⊆ E' -> conn E a b -> conn E' a b.
Proof.
  intros HE Hc. induction Hc as [a|a b Hab|a b _ IH|a b c _ IH1 _ IH2].
  - apply conn_refl.
  - apply conn_edge. by apply HE.
  - by apply conn_sym.
  - by eapply conn_trans.
Qed.

(** A function that is constant along every edge is constant on every
    connected component. *)
Lemma conn_invariant {B : Type} (f : A -> B) E a b :
  (∀ x y, (x, y) ∈ E -> f x = f y) -> conn E a b -> f a = f b.
Proof.
  intros Hf Hc. induction Hc as [a|a b Hab|a b _ IH|a b c _ IH1 _ IH2];
    [done|by apply Hf|done|congruence].
Qed.

(** The same holds for any equivalence in place of equality. *)
Lemma conn_least (R : relation A) `{!Equivalence R} E a b :
  (∀ x y, (x, y) ∈ E -> R x y) -> conn E a b -> R a b.
Proof.
  intros Hf Hc. induction Hc as [a|a b Hab|a b _ IH|a b c _ IH1 _ IH2].
  - reflexivity.
  - by apply Hf.
  - by symmetry.
  - by transitivity b.
Qed.

End ConnFacts.

(** ** The clustering loop *)

Section AgglomerationFacts.
Context {W : Type} `{EdgeWeight W}.
Implicit Types (g : merge_graph W) (e : medge W).

Lemma min_edge_None (l : list (medge W)) : min_edge l = None -> l = [].
Proof.
  destruct l as [|e t]; [done|]. simpl.
  destruct (min_edge t); [by case_match|done].
Qed.

Lemma min_edge_Some (l : list (medge W)) e : min_edge l = Some e -> e ∈ l.
Proof.
  revert e. induction l as [|x t IH]; intros e; simpl; [done|].
  destruct (min_edge t) as [m|].
  - case_match; intros [= <-]; [right; by apply IH|by left].
  - intros [= <-]. by left.
Qed.

Lemma add_parallel_ends e acc x :
  x ∈ add_parallel e acc ->
  ∃ y, (y = e ∨ y ∈ acc) ∧ me_u x = me_u y ∧ me_v x = me_v y.
Proof.
  revert x. induction acc as [|y t IH]; intros x; simpl.
  - intros ->%list_elem_of_singleton. exists e. auto.
  - case_decide.
    + intros [->|Hx]%elem_of_cons.
      * exists y. split; [right; by left|done].
      * exists x. split; [right; by right|done].
    + intros [->|Hx]%elem_of_cons.
      * exists y. split; [right; by left|done].
      * apply IH in Hx as (z & [->|Hz] & ?); [exists e; auto|].
        exists z. split; [right; by right|done].
Qed.

Lemma add_parallel_joins e acc y a b :
  (y = e ∨ y ∈ acc) -> joins y a b -> ∃ x, x ∈ add_parallel e acc ∧ joins x a b.
Proof.
  induction acc as [|z t IH]; simpl.
  - intros [->|[]%elem_of_nil] Hj. exists e. split; [by left|done].
  - intros Hy Hj. case_decide as Hs.
    + destruct Hy as [->|[->|Hy]%elem_of_cons].
      * exists (combine_edges z e). split; [by left|].
        unfold joins, same_ends in *. simpl.
        destruct Hs as [[-> ->]|[-> ->]]; destruct Hj as [[<- <-]|[<- <-]]; auto.
      * exists (combine_edges z e). split; [by left|]. done.
      * exists y. split; [by right|done].
    + destruct Hy as [->|[->|Hy]%elem_of_cons].
      * destruct IH as (x & ? & ?); [by left|done|]. exists x. split; [by right|done].
      * exists z. split; [by left|done].
      * destruct IH as (x & ? & ?); [by right|done|]. exists x. split; [by right|done].
Qed.

Lemma add_parallel_length e acc : length (add_parallel e acc) ≤ S (length acc).
Proof.
  induction acc as [|z t IH]; simpl; [lia|]. case_decide; simpl; lia.
Qed.

Lemma merge_parallel_from_ends (l acc : list (medge W)) x :
  x ∈ foldl (fun acc e => add_parallel e acc) acc l ->
  ∃ y, (y ∈ acc ∨ y ∈ l) ∧ me_u x = me_u y ∧ me_v x = me_v y.
Proof.
  revert acc. induction l as [|e t IH]; intros acc; simpl.
  - intros Hx. exists x. auto.
  - intros (y & [Hy|Hy] & Hu & Hv)%IH.
    + apply add_parallel_ends in Hy as (z & [->|Hz] & Hu' & Hv').
      * exists e. split; [right; by left|split; congruence].
      * exists z. split; [by left|split; congruence].
    + exists y. split; [right; by right|done].
Qed.

Lemma merge_parallel_ends (l : list (medge W)) x :
  x ∈ merge_parallel l -> ∃ y, y ∈ l ∧ me_u x = me_u y ∧ me_v x = me_v y.
Proof.
  intros (y & [[]%elem_of_nil|Hy] & ?)%merge_parallel_from_ends. by exists y.
Qed.

Lemma merge_parallel_from_joins (l acc : list (medge W)) y a b :
  (y ∈ acc ∨ y ∈ l) -> joins y a b ->
  ∃ x, x ∈ foldl (fun acc e => add_parallel e acc) acc l ∧ joins x a b.
Proof.
  revert acc y. induction l as [|e t IH]; intros acc y; simpl.
  - intros [Hy|[]%elem_of_nil] Hj. by exists y.
  - intros [Hy|[->|Hy]%elem_of_cons] Hj.
    + destruct (add_parallel_joins e acc y a b) as (x & Hx & Hxj); [by right|done|].
      by apply (IH _ x); [left|].
    + destruct (add_parallel_joins e acc e a b) as (x & Hx & Hxj); [by left|done|].
      by apply (IH _ x); [left|].
    + by apply (IH _ y); [right|].
Qed.

Lemma merge_parallel_joins (l : list (medge W)) y a b :
  y ∈ l -> joins y a b -> ∃ x, x ∈ merge_parallel l ∧ joins x a b.
Proof. intros Hy. apply merge_parallel_from_joins. by right. Qed.

Lemma merge_parallel_from_length (l acc : list (medge W)) :
  length (foldl (fun acc e => add_parallel e acc) acc l) ≤ length acc + length l.
Proof.
  revert acc. induction l as [|e t IH]; intros acc; simpl; [lia|].
  specialize (IH (add_parallel e acc)). pose proof (add_parallel_length e acc). lia.
Qed.

Lemma merge_parallel_length (l : list (medge W)) : length (merge_parallel l) ≤ length l.
Proof. apply (merge_parallel_from_length l []). Qed.

Lemma contract_edges_length e g :
  e ∈ mg_edges g -> length (mg_edges (contract e g)) < length (mg_edges g).
Proof.
  intros He. unfold contract. simpl.
  eapply Nat.le_lt_trans; [apply merge_parallel_length|].
  eapply Nat.lt_le_trans.
  - apply (length_filter_lt _ _ (redirect_edge (me_v e) (me_u e) e)).
    + apply list_elem_of_fmap. by exists e.
    + simpl. unfold redirect. repeat case_decide; congruence.
  - by rewrite length_fmap.
Qed.


Lemma initial_graph_inv E (ws : list W) seeds :
  graph_ok (length seeds) E ws -> mg_inv E seeds (initial_graph E ws seeds).
Proof.
  intros (Hlen & Hall & _). rewrite Forall_forall in Hall.
  split; simpl.
  - by rewrite length_seq.
  - done.
  - intros i r [-> _]%lookup_seq. apply conn_refl.
  - intros e (x & w & -> & Hx & _)%elem_of_zip_with. simpl.
    destruct (Hall _ Hx) as (? & ? & ?). split_and!; try done.
    apply conn_edge. by destruct x.
  - intros i r s [-> _]%lookup_seq Hs _. unfold node_label. simpl. by rewrite Hs.
  - intros u v ru rv Huv [-> _]%lookup_seq [-> _]%lookup_seq. right. simpl.
    apply list_elem_of_lookup in Huv as [k Hk].
    destruct (lookup_lt_is_Some_2 ws k) as [w Hw].
    { rewrite Hlen. by eapply lookup_lt_Some. }
    exists (MEdge u v w 1%positive). split; [|left; done].
    apply list_elem_of_lookup. exists k.
    rewrite lookup_zip_with, Hk. simpl. by rewrite Hw.
Qed.

Lemma redirect_conn E b a x : conn E a b -> conn E x (redirect b a x).
Proof.
  intros Hab. unfold redirect. case_decide as Hx; [subst; by apply conn_sym|apply conn_refl].
Qed.

Lemma contract_inv E seeds g e :
  mg_inv E seeds g -> e ∈ mg_edges g -> contractible g e ->
  mg_inv E seeds (contract e g).
Proof.
  intros [Hrl Hll Hconn Hedges Hlabel Hcover] He Hc.
  destruct (Hedges _ He) as (Hab & Hne & Ha & Hb).
  destruct e as [a b w len]. unfold contractible in Hc. simpl in Hab, Hne, Ha, Hb, Hc.
  assert (Hnew : ∀ r, node_label (contract (MEdge a b w len) g) (redirect b a r) =
            if decide (redirect b a r = a)
            then (if decide (node_label g a = 0%Z) then node_label g b else node_label g a)
            else node_label g r).
  { intros r. unfold node_label at 1. simpl.
    destruct (decide (redirect b a r = a)) as [->|Hr].
    - rewrite list_lookup_insert_eq; [done|lia].
    - rewrite list_lookup_insert_ne; [|done].
      unfold redirect in *. by destruct (decide (r = b)). }
  split.
  - simpl. by rewrite length_fmap.
  - simpl. by rewrite length_insert.
  - simpl. intros i r Hi. rewrite list_lookup_fmap in Hi.
    destruct (mg_repr g !! i) as [r0|] eqn:Hr0; [|done]. injection Hi as <-.
    eapply conn_trans; [by apply Hconn|by apply redirect_conn].
  - simpl. intros x (y & Hy & Hu & Hv)%merge_parallel_ends.
    apply list_elem_of_filter in Hy as [Hyne Hy].
    apply list_elem_of_fmap in Hy as (z & -> & Hz).
    destruct (Hedges _ Hz) as (Hzc & _ & Hzu & Hzv).
    rewrite Hu, Hv. clear Hnew. simpl in Hyne |- *. split_and!; [|done|..].
    + eapply conn_trans; [apply conn_sym, redirect_conn, Hab|].
      eapply conn_trans; [apply Hzc|]. by apply redirect_conn.
    + unfold redirect. by destruct (decide (me_u z = b)).
    + unfold redirect. by destruct (decide (me_v z = b)).
  - intros i r s Hi Hs Hs0. simpl in Hi. rewrite list_lookup_fmap in Hi.
    destruct (mg_repr g !! i) as [r0|] eqn:Hr0; [|done]. injection Hi as <-.
    rewrite Hnew. clear Hnew. pose proof (Hlabel _ _ _ Hr0 Hs Hs0) as Hl0.
    destruct (decide (redirect b a r0 = a)) as [Hr|Hr]; [|done].
    unfold redirect in Hr. destruct (decide (r0 = b)) as [->|Hrb].
    + destruct (decide (node_label g a = 0%Z)); [done|].
      destruct Hc as [Hc|[Hc|Hc]]; congruence.
    + subst r0. destruct (decide (node_label g a = 0%Z)); congruence.
  - simpl. intros u v ru rv Huv Hu Hv. rewrite list_lookup_fmap in Hu, Hv.
    destruct (mg_repr g !! u) as [ru0|] eqn:Hru0; [|done]. injection Hu as <-.
    destruct (mg_repr g !! v) as [rv0|] eqn:Hrv0; [|done]. injection Hv as <-.
    destruct (Hcover _ _ _ _ Huv Hru0 Hrv0) as [->|(x & Hx & Hj)]; [by left|].
    destruct (decide (redirect b a ru0 = redirect b a rv0)) as [|Hd]; [by left|right].
    apply (merge_parallel_joins _ (redirect_edge b a x)).
    + apply list_elem_of_filter. split.
      * simpl. destruct Hj as [[-> ->]|[-> ->]]; congruence.
      * apply list_elem_of_fmap. by exists x.
    + unfold joins. simpl. destruct Hj as [[-> ->]|[-> ->]]; auto.
Qed.

Lemma agglomerate_inv E seeds rounds stop g :
  mg_inv E seeds g -> mg_inv E seeds (agglomerate rounds stop g).
Proof.
  revert g. induction rounds as [|k IH]; intros g Hg; simpl; [done|].
  case_decide; [done|].
  destruct (min_edge _) as [e|] eqn:He; [|done].
  apply min_edge_Some, list_elem_of_filter in He as [Hc He].
  apply IH. by apply contract_inv.
Qed.

(** When the loop ends, few enough groups are left or no edge can be
    contracted. *)
Lemma agglomerate_done rounds stop g :
  length (mg_edges g) ≤ rounds ->
  let g' := agglomerate rounds stop g in
  nodeNum g' ≤ stop ∨ ∀ e, e ∈ mg_edges g' -> ¬ contractible g' e.
Proof.
  revert g. induction rounds as [|k IH]; intros g Hlen; simpl.
  - right. intros e He. destruct (mg_edges g); [by apply elem_of_nil in He|simpl in Hlen; lia].
  - case_decide; [by left|].
    destruct (min_edge _) as [e|] eqn:He.
    + apply IH. apply min_edge_Some, list_elem_of_filter in He as [_ He].
      pose proof (contract_edges_length e g He). lia.
    + right. intros e He' Hc. apply min_edge_None in He.
      assert (e ∈ filter (contractible g) (mg_edges g)) as Hin
        by (by apply list_elem_of_filter).
      rewrite He in Hin. by apply elem_of_nil in Hin.
Qed.

End AgglomerationFacts.

Section PandasFacts2.
Context {A K : Type} `{EqDecision K} (key : A -> K).

Lemma drop_duplicates_subseteq l : drop_duplicates key l ⊆ l.
Proof.
  induction l as [|x t IH]; simpl; [done|].
  intros y [->|Hy]%elem_of_cons; [by left|right].
  apply list_elem_of_filter in Hy as [_ Hy]. by apply IH.
Qed.

Lemma drop_duplicates_keys l x :
  x ∈ l -> ∃ y, y ∈ drop_duplicates key l ∧ key y = key x.
Proof.
  induction l as [|z t IH]; simpl; [by intros ?%elem_of_nil|].
  intros [->|Hx]%elem_of_cons.
  - exists z. split; [by left|done].
  - destruct (decide (key x = key z)) as [Heq|Hne].
    + exists z. split; [by left|done].
    + destruct (IH Hx) as (y & Hy & Hk). exists y. split; [|done].
      right. apply list_elem_of_filter. split; [congruence|done].
Qed.

Lemma drop_duplicates_NoDup l : NoDup (key <$> drop_duplicates key l).
Proof.
  induction l as [|x t IH]; simpl; [constructor|].
  constructor.
  - intros (y & Hk & Hy)%list_elem_of_fmap.
    apply list_elem_of_filter in Hy as [Hne _]. congruence.
  - revert IH. generalize (drop_duplicates key t). intros l IH.
    induction l as [|y l IHl]; [constructor|].
    rewrite fmap_cons in IH. apply NoDup_cons in IH as [Hy IH].
    rewrite filter_cons. case_decide; [|by apply IHl].
    rewrite fmap_cons. constructor; [|by apply IHl].
    intros (z & Hk & Hz)%list_elem_of_fmap.
    apply list_elem_of_filter in Hz as [_ Hz].
    apply Hy, list_elem_of_fmap. by exists z.
Qed.

End PandasFacts2.

Lemma drop_duplicates_id_elem_of {A : Type} `{EqDecision A} (l : list A) x :
  x ∈ drop_duplicates id l ↔ x ∈ l.
Proof.
  split; [apply drop_duplicates_subseteq|].
  intros (y & Hy & Hk)%(drop_duplicates_keys id). simpl in Hk. by subst.
Qed.

Lemma drop_duplicates_id_NoDup {A : Type} `{EqDecision A} (l : list A) :
  NoDup (drop_duplicates id l).
Proof. rewrite <-(list_fmap_id (drop_duplicates id l)). apply drop_duplicates_NoDup. Qed.

Lemma elem_of_unique {A : Type} `{EqDecision A} (l : list A) x : x ∈ unique l ↔ x ∈ l.
Proof. apply drop_duplicates_id_elem_of. Qed.

(** More than one selected row in a table without repeated rows means two
    different selected rows. *)
Lemma filter_length_gt_1 {A : Type} (P : A -> Prop) `{∀ x, Decision (P x)} (l : list A) :
  NoDup l ->
  1 < length (filter P l) ↔ ∃ x y, x <> y ∧ x ∈ l ∧ y ∈ l ∧ P x ∧ P y.
Proof.
  intros Hnd. split.
  - intros Hlen.
    assert (NoDup (filter P l)) as Hnf by by apply NoDup_filter.
    destruct (filter P l) as [|x [|y t]] eqn:Hf; simpl in Hlen; [lia|lia|].
    assert (x ∈ filter P l ∧ y ∈ filter P l) as [Hx Hy].
    { rewrite Hf. split; [by left|right; by left]. }
    apply list_elem_of_filter in Hx as [? ?], Hy as [? ?].
    exists x, y. split_and!; try done.
    apply NoDup_cons in Hnf as [Hn _]. intros ->. apply Hn. by left.
  - intros (x & y & Hne & Hx & Hy & HPx & HPy).
    assert (x ∈ filter P l ∧ y ∈ filter P l) as [Hx' Hy'].
    { split; by apply list_elem_of_filter. }
    destruct (filter P l) as [|a [|b t]]; simpl; [|exfalso|lia].
    + by apply elem_of_nil in Hx'.
    + apply list_elem_of_singleton in Hx', Hy'. congruence.
Qed.

(** ** LabelMapper *)

Section LabelMapperFacts.
Context {K V : Type} `{Countable K}.

Lemma LabelMapper_Some (dom : list K) (cod : list V) k v :
  LabelMapper dom cod !! k = Some v -> (k, v) ∈ zip dom cod.
Proof.
  unfold LabelMapper. intros Hl. apply (elem_of_list_to_map_2 (M:=gmap K)) in Hl.
  by rewrite elem_of_reverse in Hl.
Qed.

Lemma LabelMapper_is_Some (dom : list K) (cod : list V) k :
  length dom ≤ length cod -> k ∈ dom -> is_Some (LabelMapper dom cod !! k).
Proof.
  intros Hlen Hk. unfold LabelMapper.
  destruct (list_to_map _ !! k) eqn:Hl; [done|].
  apply (not_elem_of_list_to_map (M:=gmap K)) in Hl. exfalso. apply Hl.
  rewrite fmap_reverse, elem_of_reverse, fst_zip; done.
Qed.

Lemma LabelMapper_None (dom : list K) (cod : list V) k :
  length dom ≤ length cod -> k ∉ dom -> LabelMapper dom cod !! k = None.
Proof.
  intros Hlen Hk. unfold LabelMapper.
  apply (not_elem_of_list_to_map (M:=gmap K)).
  rewrite fmap_reverse, elem_of_reverse, fst_zip; done.
Qed.

End LabelMapperFacts.

(** ** The error monad *)

Lemma mapR_Ok {A B : Type} (f : A -> result B) l out :
  mapR f l = Ok out ↔ Forall2 (fun x y => f x = Ok y) l out.
Proof.
  revert out. induction l as [|x t IH]; intros out; simpl.
  - split; [intros [= <-]; constructor|by intros ->%Forall2_nil_inv_l].
  - split.
    + destruct (f x) as [y|] eqn:Hx; simpl; [|done].
      destruct (mapR f t) as [ys|] eqn:Ht; simpl; [|done].
      intros [= <-]. constructor; [done|]. by apply IH.
    + intros (y & ys & Hy & Hys & ->)%Forall2_cons_inv_l.
      rewrite Hy. simpl. apply IH in Hys. by rewrite Hys.
Qed.

Lemma mapR_total {A B : Type} (f : A -> result B) l :
  (∀ x, x ∈ l -> ∃ y, f x = Ok y) -> ∃ out, mapR f l = Ok out.
Proof.
  induction l as [|x t IH]; intros Hf; simpl; [by eexists|].
  destruct (Hf x) as [y Hy]; [by left|]. rewrite Hy. simpl.
  destruct IH as [ys Hys]; [intros z Hz; apply Hf; by right|].
  rewrite Hys. simpl. by eexists.
Qed.

Lemma mapR_lookup {A B : Type} (f : A -> result B) l out i x :
  mapR f l = Ok out -> l !! i = Some x -> ∃ y, out !! i = Some y ∧ f x = Ok y.
Proof.
  intros Hm%mapR_Ok Hx.
  destruct (Forall2_lookup_l _ _ _ _ _ Hm Hx) as (y & ? & ?). by exists y.
Qed.

Lemma mapR_length {A B : Type} (f : A -> result B) l out :
  mapR f l = Ok out -> length out = length l.
Proof. intros Hm%mapR_Ok. symmetry. by eapply Forall2_length. Qed.

(** ** relabel_clusters *)

Lemma elem_of_zip_lookup {A B : Type} (l : list A) (k : list B) x y :
  (x, y) ∈ zip l k ↔ ∃ i, l !! i = Some x ∧ k !! i = Some y.
Proof.
  split.
  - intros (i & x' & y' & [= -> ->] & ? & ?)%elem_of_lookup_zip_with. by exists i.
  - intros (i & ? & ?). apply elem_of_lookup_zip_with. by exists i, x, y.
Qed.

Lemma relabel_clusters_spec (seeds : list Z) (agg : list nat) :
  length seeds = length agg ->
  ∃ out dc cuc, relabel_clusters seeds agg = Ok (out, dc, cuc)
    ∧ relabel_spec seeds agg out dc cuc.
Proof.
  intros Hlen. unfold relabel_clusters, agg_DataFrame.
  rewrite decide_True by done. simpl.
  set (df := drop_duplicates id (zip seeds agg)).
  assert (Hdf : ∀ s a, (s, a) ∈ df ↔ ∃ i, seeds !! i = Some s ∧ agg !! i = Some a).
  { intros s a. unfold df. by rewrite drop_duplicates_id_elem_of, elem_of_zip_lookup. }
  assert (Hdfnd : NoDup df) by apply drop_duplicates_id_NoDup.
  set (smdf := filter (fun r : Z * nat => r.1 <> 0%Z) df).
  assert (Hsm : ∀ s a, (s, a) ∈ smdf ↔ s <> 0%Z ∧ (s, a) ∈ df).
  { intros s a. unfold smdf. by rewrite list_elem_of_filter. }
  assert (Hsmnd : NoDup smdf) by by apply NoDup_filter.
  set (seeded := list_to_set smdf.*2 : gset nat).
  assert (Hseeded : ∀ a, a ∈ seeded ↔ ∃ s, s <> 0%Z ∧ (s, a) ∈ df).
  { intros a. unfold seeded. rewrite elem_of_list_to_set, list_elem_of_fmap. split.
    - intros ([s a'] & -> & Hin). exists s. by apply Hsm.
    - intros (s & Hs & Hin). exists (s, a). split; [done|]. by apply Hsm. }
  set (nonseeded := (filter (fun r : Z * nat => r.2 ∉ seeded) df).*2).
  assert (Hnon : ∀ a, a ∈ nonseeded ↔ (∃ s, (s, a) ∈ df) ∧ a ∉ seeded).
  { intros a. unfold nonseeded. rewrite list_elem_of_fmap. split.
    - intros ([s a'] & -> & [Hns Hin]%list_elem_of_filter). split; [by exists s|done].
    - intros ([s Hin] & Hns). exists (s, a). split; [done|].
      by apply list_elem_of_filter. }
  assert (Hgroup : ∀ a, (∃ s, s <> 0%Z ∧ (s, a) ∈ df) ↔
            ∃ j s, agg !! j = Some a ∧ seeds !! j = Some s ∧ s <> 0%Z).
  { intros a. split.
    - intros (s & Hs & (j & ? & ?)%Hdf). by exists j, s.
    - intros (j & s & ? & ? & ?). exists s. split; [done|]. apply Hdf. by exists j. }
  set (pair := if bool_decide (0 < length nonseeded) then _ else _).
  assert (Hpair : pair = (smdf.*2 ++ nonseeded,
                          smdf.*1 ++ replicate (length nonseeded) 0%Z)).
  { unfold pair. case_bool_decide as Hn; [done|].
    destruct nonseeded; simpl in Hn |- *; [by rewrite !app_nil_r|lia]. }
  rewrite Hpair. clear pair Hpair.
  set (mapper := LabelMapper _ _).
  assert (HmS : ∀ a s, mapper !! a = Some s ->
            (s <> 0%Z ∧ (s, a) ∈ df) ∨ (s = 0%Z ∧ a ∈ nonseeded)).
  { intros a s Hm%LabelMapper_Some.
    rewrite zip_with_app in Hm by by rewrite !length_fmap.
    apply elem_of_app in Hm as [Hm|Hm].
    - left. apply Hsm. apply elem_of_zip_lookup in Hm as (i & Ha & Hs).
      rewrite list_lookup_fmap in Ha. rewrite list_lookup_fmap in Hs.
      destruct (smdf !! i) as [[s' a']|] eqn:Hi; [|done].
      simpl in Ha, Hs. injection Ha as <-. injection Hs as <-.
      by eapply list_elem_of_lookup_2.
    - right. apply elem_of_zip_lookup in Hm as (i & Ha & Hs).
      apply lookup_replicate in Hs as [-> _]. split; [done|].
      by eapply list_elem_of_lookup_2. }
  assert (HmD : ∀ i a, agg !! i = Some a -> is_Some (mapper !! a)).
  { intros i a Ha. apply LabelMapper_is_Some.
    { by rewrite !length_app, !length_fmap, length_replicate. }
    destruct (lookup_lt_is_Some_2 seeds i) as [s Hs].
    { rewrite Hlen. by eapply lookup_lt_Some. }
    assert ((s, a) ∈ df) as Hin by (apply Hdf; by exists i).
    apply elem_of_app. destruct (decide (a ∈ seeded)) as [Hd|Hd].
    - left. apply Hseeded in Hd as (s' & ? & ?).
      apply list_elem_of_fmap. exists (s', a). split; [done|]. by apply Hsm.
    - right. apply Hnon. split; [by exists s|done]. }
  destruct (mapR_total (apply1 mapper) agg) as [out Hout].
  { intros a [i Ha]%list_elem_of_lookup. destruct (HmD _ _ Ha) as [s Hs].
    exists s. unfold apply1. by rewrite Hs. }
  unfold apply. rewrite Hout. simpl. eexists _, _, _. split; [done|].
  assert (Hlk : ∀ i a s, agg !! i = Some a -> out !! i = Some s -> mapper !! a = Some s).
  { intros i a s Ha Hs. destruct (mapR_lookup _ _ _ _ _ Hout Ha) as (s' & Hs' & Hap).
    unfold apply1 in Hap. destruct (mapper !! a); [|done]. congruence. }
  assert (Hex : ∀ i a, agg !! i = Some a -> ∃ s, out !! i = Some s).
  { intros i a Ha. destruct (mapR_lookup _ _ _ _ _ Hout Ha) as (s' & Hs' & _). eauto. }
  split.
  - by eapply mapR_length.
  - intros i a s Ha Hs Hs0.
    destruct (HmS _ _ (Hlk _ _ _ Ha Hs)) as [[_ Hin]|[? _]]; [|done].
    apply Hdf in Hin as (j & ? & ?). by exists j.
  - intros i a Ha Hg. destruct (Hex _ _ Ha) as [s Hs]. exists s. split; [done|].
    destruct (HmS _ _ (Hlk _ _ _ Ha Hs)) as [[? _]|[_ Hn]]; [done|].
    apply Hnon in Hn as [_ Hn]. exfalso. apply Hn, Hseeded, Hgroup. done.
  - intros i a Ha Hg. destruct (Hex _ _ Ha) as [s Hs]. rewrite Hs. f_equal.
    destruct (HmS _ _ (Hlk _ _ _ Ha Hs)) as [[Hs0 Hin]|[? _]]; [|done].
    apply Hdf in Hin as (j & Hsj & Haj). specialize (Hg _ Haj). congruence.
  - intros c. rewrite elem_of_list_to_set, list_elem_of_fmap.
    unfold groupby_size. split.
    + intros ([c' n] & -> & [Hn Hin]%list_elem_of_filter). simpl in Hn |- *.
      apply list_elem_of_fmap in Hin as ([s a] & [= -> ->] & Hin). simpl in Hn.
      apply drop_duplicates_subseteq, Hsm in Hin as [Hs0 _]. split; [done|].
      apply filter_length_gt_1 in Hn as ([s1 a1] & [s2 a2] & Hne & H1 & H2 & E1 & E2);
        [|done].
      simpl in E1, E2. subst s1 s2.
      apply Hsm in H1 as [_ (i & ? & ?)%Hdf], H2 as [_ (j & ? & ?)%Hdf].
      exists i, j, a1, a2. split_and!; try done. congruence.
    + intros (Hc & i & j & a & a' & Hi & Hj & Ha & Ha' & Hne).
      assert ((c, a) ∈ smdf ∧ (c, a') ∈ smdf) as [H1 H2].
      { split; apply Hsm; (split; [done|]); apply Hdf; eauto. }
      destruct (drop_duplicates_keys fst smdf (c, a) H1) as ([c0 a0] & Hin & Hk).
      simpl in Hk. subst c0.
      exists (c, length (filter (fun y : Z * nat => y.1 = c) smdf)). split; [done|].
      apply list_elem_of_filter. split.
      * simpl. apply filter_length_gt_1; [done|].
        exists (c, a), (c, a'). split_and!; try done. congruence.
      * apply list_elem_of_fmap. by exists (c, a0).
  - rewrite bool_decide_eq_true. split.
    + intros Hn. destruct nonseeded as [|a t] eqn:Hns; [simpl in Hn; lia|].
      assert (a ∈ nonseeded) as Ha by (rewrite Hns; by left).
      rewrite <-Hns in *. clear Hns.
      apply Hnon in Ha as [[s (i & Hs & Ha)%Hdf] Hnot].
      exists i, a. split; [done|]. intros j Hj.
      destruct (lookup_lt_is_Some_2 seeds j) as [s' Hs'].
      { rewrite Hlen. by eapply lookup_lt_Some. }
      rewrite Hs'. f_equal. destruct (decide (s' = 0%Z)) as [|Hs0]; [done|].
      exfalso. apply Hnot, Hseeded. exists s'. split; [done|]. apply Hdf. by exists j.
    + intros (i & a & Ha & Hall).
      assert (a ∈ nonseeded) as Hin.
      { apply Hnon. split.
        - exists 0%Z. apply Hdf. exists i. split; [by apply Hall|done].
        - intros (s & Hs0 & (j & Hs & Hj)%Hdf)%Hseeded. specialize (Hall _ Hj). congruence. }
      destruct nonseeded; [by apply elem_of_nil in Hin|simpl; lia].
Qed.

(** ** vg_agglomerativeClustering *)

Section ClusterFacts.
Context {W : Type} `{EdgeWeight W}.

Lemma vg_agglomerativeClustering_spec edges (ws : list W) seeds stop :
  graph_ok (length seeds) edges ws ->
  ∃ agg, vg_agglomerativeClustering edges ws seeds stop = Ok agg
         ∧ cluster_spec edges seeds stop agg.
Proof.
  intros Hok. unfold vg_agglomerativeClustering. rewrite decide_True by done.
  eexists. split; [done|].
  set (g0 := initial_graph edges ws seeds).
  pose proof (agglomerate_inv edges seeds (length edges) stop g0
                (initial_graph_inv _ _ _ Hok)) as Hinv.
  pose proof (agglomerate_done (length edges) stop g0) as Hdone.
  set (g := agglomerate (length edges) stop g0) in *.
  destruct Hinv as [Hrl Hll Hconn Hedges Hlabel Hcover].
  split.
  - done.
  - intros i j r Hi Hj. eapply conn_trans; [by apply Hconn|]. apply conn_sym. by apply Hconn.
  - intros i j r s s' Hi Hj Hs Hs' Hs0 Hs0'.
    rewrite <-(Hlabel _ _ _ Hi Hs Hs0). by apply Hlabel with j.
  - intros u v s Huv Hu Hv Hs0.
    destruct (lookup_lt_is_Some_2 (mg_repr g) u) as [ru Hru].
    { rewrite Hrl. by eapply lookup_lt_Some. }
    destruct (lookup_lt_is_Some_2 (mg_repr g) v) as [rv Hrv].
    { rewrite Hrl. by eapply lookup_lt_Some. }
    rewrite Hru, Hrv.
    assert (ru = rv ∨ ∃ e, e ∈ mg_edges g ∧ joins e ru rv) as [->|(e & He & Hj)].
    { destruct Huv as [Huv|Huv].
      - by eapply Hcover.
      - destruct (Hcover _ _ _ _ Huv Hrv Hru) as [->|(e & He & Hj)]; [by left|right].
        exists e. split; [done|]. unfold joins in *. tauto. }
    { by left. }
    right. destruct Hdone as [Hd|Hd]; [|done|exfalso].
    { unfold g0, initial_graph. simpl. destruct Hok as (Hl & _).
      rewrite length_zip_with. lia. }
    apply (Hd e He). unfold contractible. right. right.
    pose proof (Hlabel _ _ _ Hru Hu Hs0). pose proof (Hlabel _ _ _ Hrv Hv Hs0).
    destruct Hj as [[-> ->]|[-> ->]]; congruence.
Qed.

End ClusterFacts.

(** ** The consecutive relabelling of [cleave] *)

Section MapperFacts.
Implicit Types (ids : list Z).

Lemma mapper_Some ids x i :
  LabelMapper ids (seq 0 (length ids)) !! x = Some i -> ids !! i = Some x.
Proof.
  intros (k & Hk & Hi)%LabelMapper_Some%elem_of_zip_lookup.
  apply lookup_seq in Hi as [-> _]. done.
Qed.

Lemma mapper_is_Some ids x :
  x ∈ ids -> is_Some (LabelMapper ids (seq 0 (length ids)) !! x).
Proof. intros Hx. apply LabelMapper_is_Some; [by rewrite length_seq|done]. Qed.

Lemma mapper_NoDup ids x i :
  NoDup ids -> ids !! i = Some x -> LabelMapper ids (seq 0 (length ids)) !! x = Some i.
Proof.
  intros Hnd Hi.
  destruct (mapper_is_Some ids x) as [j Hj]; [by eapply list_elem_of_lookup_2|].
  rewrite Hj. f_equal. apply mapper_Some in Hj.
  by eapply NoDup_lookup.
Qed.

Lemma mapper_lt ids x i :
  LabelMapper ids (seq 0 (length ids)) !! x = Some i -> i < length ids.
Proof. intros Hi%mapper_Some. by eapply lookup_lt_Some. Qed.

End MapperFacts.

(** ** The seed label array *)

Lemma stamp_length c idxs sl : length (stamp c idxs sl) = length sl.
Proof.
  revert sl. induction idxs as [|i t IH]; intros sl; simpl; [done|].
  unfold stamp in *. simpl. by rewrite IH, length_insert.
Qed.

Lemma stamp_lookup c idxs sl i :
  stamp c idxs sl !! i =
    if decide (i ∈ idxs ∧ i < length sl) then Some c else sl !! i.
Proof.
  revert sl. induction idxs as [|j t IH]; intros sl.
  - change (stamp c [] sl) with sl.
    case_decide as Hd; [|done]. by destruct Hd as [?%elem_of_nil _].
  - change (stamp c (j :: t) sl) with (stamp c t (<[j:=c]> sl)).
    rewrite IH, length_insert.
    destruct (decide (i ∈ t ∧ i < length sl)) as [[Ht Hl]|Hn].
    + rewrite decide_True; [done|]. split; [by right|done].
    + destruct (decide (i = j)) as [->|Hij].
      * destruct (decide (j < length sl)).
        -- rewrite list_lookup_insert_eq by done. rewrite decide_True; [done|].
           split; [by left|done].
        -- rewrite list_insert_ge by lia. rewrite decide_False; [done|]. by intros [_ ?].
      * rewrite list_lookup_insert_ne by done.
        rewrite decide_False; [done|].
        intros [[?|?]%elem_of_cons ?]; [done|]. by apply Hn.
Qed.

Lemma seed_label_array_from (mapper : gmap Z nat) seeds_dict init :
  (∀ c l x, (c, l) ∈ seeds_dict -> x ∈ l ->
     ∃ i, mapper !! x = Some i ∧ i < length init) ->
  ∃ sl, foldR (fun seed_labels '(seed_class, seed_nodes) =>
                 seed_nodes ← apply mapper seed_nodes;
                 Ok (stamp seed_class seed_nodes seed_labels)) init seeds_dict = Ok sl
        ∧ seed_array_spec mapper seeds_dict init sl.
Proof.
  revert init. induction seeds_dict as [|[c l] t IH]; intros init Hin; simpl.
  - exists init. split; [done|]. split; [done|by left|].
    intros ? ? ? ? []%elem_of_nil.
  - destruct (mapR_total (apply1 mapper) l) as [idxs Hidxs].
    { intros x Hx. destruct (Hin c l x) as (i & Hi & _); [by left|done|].
      exists i. unfold apply1. by rewrite Hi. }
    assert (apply mapper l = Ok idxs) as -> by done. simpl.
    assert (Hidx : ∀ i, i ∈ idxs ↔ ∃ x, x ∈ l ∧ mapper !! x = Some i).
    { intros i. apply mapR_Ok in Hidxs. split.
      - intros [k Hk]%list_elem_of_lookup.
        destruct (Forall2_lookup_r _ _ _ _ _ Hidxs Hk) as (x & Hx & Hap).
        exists x. split; [by eapply list_elem_of_lookup_2|].
        unfold apply1 in Hap. destruct (mapper !! x); congruence.
      - intros (x & [k Hk]%list_elem_of_lookup & Hm).
        destruct (Forall2_lookup_l _ _ _ _ _ Hidxs Hk) as (j & Hj & Hap).
        unfold apply1 in Hap. rewrite Hm in Hap. injection Hap as <-.
        by eapply list_elem_of_lookup_2. }
    destruct (IH (stamp c idxs init)) as (sl & Hsl & [Hlen Hfrom Hst]).
    { intros c' l' x Hc Hx. rewrite stamp_length. apply (Hin c' l' x); [by right|done]. }
    exists sl. split; [done|]. split.
    + by rewrite Hlen, stamp_length.
    + intros i s Hs. destruct (Hfrom _ _ Hs) as [Hi|(l' & x & ? & ? & ?)].
      * rewrite stamp_lookup in Hi. case_decide as Hd; [|by left].
        injection Hi as <-. destruct Hd as [(x & ? & ?)%Hidx _].
        right. exists l, x. split; [by left|done].
      * right. exists l', x. split; [by right|done].
    + intros c' l' x i [[= -> ->]|Hc]%elem_of_cons Hx Hm.
      * destruct (lookup_lt_is_Some_2 sl i) as [s Hs].
        { rewrite Hlen, stamp_length. destruct (Hin c l x) as (i' & Hi' & ?); [by left|done|].
          congruence. }
        destruct (Hfrom _ _ Hs) as [Hi|(l' & x' & ? & ? & ?)].
        -- rewrite stamp_lookup in Hi. rewrite decide_True in Hi.
           ++ injection Hi as <-. exists c, l, x. split_and!; try done. by left.
           ++ split; [apply Hidx; by exists x|].
              destruct (Hin c l x) as (i' & Hi' & ?); [by left|done|]. congruence.
        -- exists s, l', x'. split_and!; try done. by right.
      * destruct (Hst _ _ _ _ Hc Hx Hm) as (c'' & l'' & x'' & ? & ? & ? & ?).
        exists c'', l'', x''. split_and!; try done. by right.
Qed.

(** ** Edge cleaning *)

Lemma sort_row_cases e : sort_row e = e ∨ sort_row e = (e.2, e.1).
Proof. unfold sort_row. case_bool_decide; auto. Qed.

Lemma sort_row_le e : ((sort_row e).1 ≤ (sort_row e).2)%Z.
Proof. unfold sort_row. case_bool_decide; simpl; lia. Qed.

Lemma sort_row_sorted e : (e.1 ≤ e.2)%Z -> sort_row e = e.
Proof. intros. unfold sort_row. by rewrite bool_decide_eq_true_2. Qed.

Lemma sort_row_swap (a b : Z) : sort_row (a, b) = sort_row (b, a).
Proof.
  unfold sort_row. simpl. repeat case_bool_decide; try done; f_equal; lia.
Qed.

Lemma sort_row_loop e : (sort_row e).1 = (sort_row e).2 ↔ e.1 = e.2.
Proof. destruct (sort_row_cases e) as [->| ->]; simpl; split; congruence. Qed.

Section CleanFacts.
Context {W : Type}.
Implicit Types (ws : list W) (r : edge_row W).

Lemma clean_edges_spec edges ws :
  length ws = length edges ->
  ∃ rows, clean_edges edges ws = Ok rows ∧ clean_spec edges ws rows.
Proof.
  intros Hlen. unfold clean_edges, clean_sorted_edges, edges_DataFrame.
  rewrite decide_True by (unfold sort_axis1; by rewrite length_fmap).
  simpl. eexists. split; [done|].
  set (tbl := zip_with _ _ _).
  assert (Htbl : ∀ i r, tbl !! i = Some r ↔
            ∃ e, edges !! i = Some e ∧ ws !! i = Some (row_weight r)
                 ∧ row_uv r = sort_row e).
  { intros i r. unfold tbl. rewrite lookup_zip_with_Some. unfold sort_axis1. split.
    - intros (se & w & -> & Hse & Hw). rewrite list_lookup_fmap in Hse.
      destruct (edges !! i) as [e|]; [|done]. injection Hse as <-.
      exists e. split_and!; try done. unfold row_uv. simpl. by destruct (sort_row e).
    - intros (e & He & Hw & Huv). exists (sort_row e), (row_weight r).
      rewrite list_lookup_fmap, He. split_and!; try done.
      destruct r as [u v w]. unfold row_uv in Huv. simpl in *. by rewrite <-Huv. }
  split.
  - intros r [Hne Hr]%list_elem_of_filter.
    apply drop_duplicates_last_subseteq, list_elem_of_lookup in Hr as [i Hi].
    apply Htbl in Hi as (e & _ & _ & Huv).
    pose proof (sort_row_le e) as Hle. rewrite <-Huv in Hle. simpl in Hle. lia.
  - eapply sublist_NoDup; [apply (drop_duplicates_last_NoDup row_uv tbl)|].
    apply fmap_sublist, sublist_filter.
  - intros r [Hne Hr]%list_elem_of_filter.
    apply drop_duplicates_last_is_last in Hr as (l1 & l2 & Heq & Hlast).
    assert (tbl !! length l1 = Some r) as Hi.
    { rewrite Heq. by rewrite list_lookup_middle. }
    apply Htbl in Hi as (e & He & Hw & Huv).
    exists (length l1), e. split_and!; try done.
    intros j e' Hj He' Hs. apply Hlast.
    destruct (lookup_lt_is_Some_2 ws j) as [w' Hw'].
    { rewrite Hlen. by eapply lookup_lt_Some. }
    assert (tbl !! j = Some (EdgeRow (sort_row e').1 (sort_row e').2 w')) as Hr'.
    { apply Htbl. exists e'. split_and!; try done. unfold row_uv. simpl.
      by destruct (sort_row e'). }
    rewrite Heq in Hr'. rewrite lookup_app_r in Hr' by lia.
    destruct (j - length l1) as [|k] eqn:Hk; [lia|]. simpl in Hr'.
    apply list_elem_of_fmap. eexists. split; [|by eapply list_elem_of_lookup_2].
    rewrite <-Hs. unfold row_uv. simpl. by destruct (sort_row e').
  - intros e [i Hi]%list_elem_of_lookup Hne.
    destruct (lookup_lt_is_Some_2 ws i) as [w Hw].
    { rewrite Hlen. by eapply lookup_lt_Some. }
    assert (tbl !! i = Some (EdgeRow (sort_row e).1 (sort_row e).2 w)) as Hr.
    { apply Htbl. exists e. split_and!; try done. unfold row_uv. simpl.
      by destruct (sort_row e). }
    apply list_elem_of_lookup_2, (drop_duplicates_last_keys row_uv) in Hr.
    apply list_elem_of_fmap in Hr as (r & Hk & Hr).
    apply list_elem_of_fmap. exists r. split.
    + rewrite <-Hk. unfold row_uv. simpl. by destruct (sort_row e).
    + apply list_elem_of_filter. split; [|done].
      unfold row_uv in Hk. simpl in Hk. injection Hk as Hu Hv.
      rewrite <-Hu, <-Hv. by rewrite sort_row_loop.
Qed.

End CleanFacts.

(** ** agglomerative_clustering *)

Lemma foldr_min_le x t : foldr Nat.min x t ≤ x.
Proof. induction t as [|y t IH]; simpl; lia. Qed.

Section CleaveFacts.
Context {W : Type} `{EdgeWeight W}.

Lemma agglomerative_clustering_spec cons_edges (ws : list W) seed_labels :
  cons_edges <> [] -> graph_ok (length seed_labels) cons_edges ws ->
  ∃ agg out dc cuc,
    agglomerative_clustering cons_edges ws seed_labels None = Ok (out, dc, cuc)
    ∧ cluster_spec cons_edges seed_labels (count_classes seed_labels) agg
    ∧ relabel_spec seed_labels agg out dc cuc.
Proof.
  intros Hne Hok. unfold agglomerative_clustering.
  pose proof Hok as (Hlen & Hall & _).
  rewrite bool_decide_eq_true_2 by done. simpl.
  destruct cons_edges as [|[u v] t]; [done|]. simpl.
  rewrite bool_decide_eq_true_2.
  2:{ apply Forall_cons in Hall as [(Hu & _) _]. simpl in Hu.
      pose proof (foldr_min_le u (v :: flat t)) as Hm. simpl in Hm.
      eapply Nat.le_lt_trans; [exact Hm|exact Hu]. }
  simpl. fold (count_classes seed_labels).
  destruct (vg_agglomerativeClustering_spec ((u, v) :: t) ws seed_labels
              (count_classes seed_labels) Hok) as (agg & -> & Hcs).
  simpl.
  destruct (relabel_clusters_spec seed_labels agg) as (out & dc & cuc & Hr & Hrs).
  { symmetry. apply Hcs. }
  exists agg, out, dc, cuc. done.
Qed.

(** ** cleave *)

Lemma apply_edge_Ok (mapper : gmap Z nat) (e : Z * Z) (ce : nat * nat) :
  (u ← apply1 mapper e.1; v ← apply1 mapper e.2; Ok (u, v)) = Ok ce
  ↔ mapper !! e.1 = Some ce.1 ∧ mapper !! e.2 = Some ce.2.
Proof.
  unfold apply1. destruct ce as [u v]. simpl.
  destruct (mapper !! e.1); simpl; [|naive_solver].
  destruct (mapper !! e.2); simpl; naive_solver.
Qed.

Lemma edge_ends_eq (a b c d : nat) :
  edge_ends (a, b) = edge_ends (c, d) -> (a = c ∧ b = d) ∨ (a = d ∧ b = c).
Proof. unfold edge_ends. simpl. intros [= ? ?]. lia. Qed.

Lemma cleave_Some_spec edges (ws : list W) seeds_dict ids :
  valid_call edges ws seeds_dict ids ->
  (∃ e, e ∈ edges ∧ e.1 <> e.2) ->
  ∃ r cons_edges seed_labels agg,
    cleave edges ws seeds_dict (Some ids) = Ok r
    ∧ node_ids r = ids
    ∧ cons_graph ids edges cons_edges
    ∧ seed_array_spec (LabelMapper ids (seq 0 (length ids))) seeds_dict
        (replicate (length ids) 0%Z) seed_labels
    ∧ cluster_spec cons_edges seed_labels (count_classes seed_labels) agg
    ∧ relabel_spec seed_labels agg (output_labels r) (disconnected_components r)
        (contains_unlabeled_components r).
Proof.
  intros (Hlen & Hedges & Hseeds) (e0 & He0 & He0ne).
  unfold cleave, cleave_call. simpl.
  destruct (clean_edges_spec edges ws Hlen) as (rows & Hrows & [Hsorted Hnd Hlast Hcompl]).
  unfold clean_edges in Hrows. rewrite Hrows. simpl.
  set (mapper := LabelMapper ids (seq 0 (length ids))).
  set (f := fun e : Z * Z => u ← apply1 mapper e.1; v ← apply1 mapper e.2; Ok (u, v)).
  (* every cleaned edge is an input edge, in one of its two directions *)
  assert (Hrow : ∀ p, p ∈ row_uv <$> rows ->
            (p.1 < p.2)%Z ∧ (p ∈ edges ∨ (p.2, p.1) ∈ edges)).
  { intros p (r & -> & Hr)%list_elem_of_fmap. split; [by apply Hsorted|].
    destruct (Hlast _ Hr) as (i & e & He & _ & Hs & _). rewrite <-Hs.
    apply list_elem_of_lookup_2 in He.
    destruct (sort_row_cases e) as [->| ->]; [by left|right]. simpl. by destruct e. }
  assert (Hrowin : ∀ p, p ∈ row_uv <$> rows -> p.1 ∈ ids ∧ p.2 ∈ ids).
  { intros p Hp. destruct (Hrow _ Hp) as [Hlt [Hin|Hin]].
    - apply Hedges; [done|lia].
    - destruct (Hedges _ Hin) as [? ?]; [simpl; lia|done]. }
  destruct (mapR_total f (row_uv <$> rows)) as [cons_edges Hcons].
  { intros p [Hp1 Hp2]%Hrowin.
    destruct (mapper_is_Some ids _ Hp1) as [u Hu], (mapper_is_Some ids _ Hp2) as [v Hv].
    exists (u, v). by apply apply_edge_Ok. }
  rewrite Hcons. simpl. rewrite length_seq.
  destruct (seed_label_array_from mapper seeds_dict (replicate (length ids) 0%Z))
    as (seed_labels & Hsl & Hsa).
  { intros c l x Hc Hx. destruct (mapper_is_Some ids x) as [i Hi]; [by eapply Hseeds|].
    exists i. split; [done|]. rewrite length_replicate. by eapply mapper_lt. }
  unfold seed_label_array. rewrite Hsl. simpl.
  pose proof (sa_length _ _ _ _ Hsa) as Hsllen. rewrite length_replicate in Hsllen.
  apply mapR_Ok in Hcons.
  assert (Hcg : cons_graph ids edges cons_edges).
  { split.
    - intros u v [k Hk]%list_elem_of_lookup.
      destruct (Forall2_lookup_r _ _ _ _ _ Hcons Hk) as (p & Hp & [Hu Hv]%apply_edge_Ok).
      apply list_elem_of_lookup_2 in Hp. destruct (Hrow _ Hp) as [Hlt Hin].
      exists p.1, p.2. split_and!; [by apply mapper_Some|by apply mapper_Some|lia|].
      destruct p; simpl in *. done.
    - intros x y u v Hxy Hne Hu Hv.
      pose proof (Hcompl _ Hxy Hne) as [k Hk]%list_elem_of_lookup.
      destruct (Forall2_lookup_l _ _ _ _ _ Hcons Hk) as ([u' v'] & Hce & [Hu' Hv']%apply_edge_Ok).
      apply list_elem_of_lookup_2 in Hce. simpl in Hu', Hv'. unfold mapper in Hu', Hv'.
      destruct (sort_row_cases (x, y)) as [Hs|Hs]; rewrite Hs in Hu', Hv'; simpl in *.
      + left. congruence.
      + right. congruence. }
  destruct (agglomerative_clustering_spec cons_edges (row_weight <$> rows) seed_labels)
    as (agg & out & dc & cuc & Hac & Hcs & Hrs).
  { assert (sort_row e0 ∈ row_uv <$> rows) as [k Hk]%list_elem_of_lookup by by apply Hcompl.
    destruct (Forall2_lookup_l _ _ _ _ _ Hcons Hk) as (ce & Hce & _).
    intros ->. done. }
  { split_and!.
    - rewrite length_fmap. apply Forall2_length in Hcons. by rewrite length_fmap in Hcons.
    - apply Forall_forall. intros [u v] Huv. simpl.
      destruct (cg_sound _ _ _ Hcg _ _ Huv) as (x & y & Hx & Hy & Hne & _).
      rewrite Hsllen. split_and!; [by eapply lookup_lt_Some|by eapply lookup_lt_Some|].
      intros ->. congruence.
    - apply NoDup_alt. intros i j ends Hi Hj.
      rewrite list_lookup_fmap in Hi. rewrite list_lookup_fmap in Hj.
      destruct (cons_edges !! i) as [[u1 v1]|] eqn:Hi'; [|done].
      destruct (cons_edges !! j) as [[u2 v2]|] eqn:Hj'; [|done].
      assert (edge_ends (u1, v1) = edge_ends (u2, v2)) as Hends
        by (simpl in Hi, Hj; congruence).
      clear Hi Hj.
      destruct (Forall2_lookup_r _ _ _ _ _ Hcons Hi') as ([x1 y1] & Hp1 & [Hu1 Hv1]%apply_edge_Ok).
      destruct (Forall2_lookup_r _ _ _ _ _ Hcons Hj') as ([x2 y2] & Hp2 & [Hu2 Hv2]%apply_edge_Ok).
      simpl in *. apply mapper_Some in Hu1, Hv1, Hu2, Hv2.
      destruct (Hrow _ (list_elem_of_lookup_2 _ _ _ Hp1)) as [Hlt1 _].
      destruct (Hrow _ (list_elem_of_lookup_2 _ _ _ Hp2)) as [Hlt2 _].
      simpl in *.
      assert ((x1, y1) = (x2, y2)) as Heq.
      { apply edge_ends_eq in Hends as [[-> ->]|[-> ->]]; [congruence|].
        assert (x1 = y2) by congruence. assert (y1 = x2) by congruence. lia. }
      rewrite <-Heq in Hp2. eapply NoDup_lookup; [apply Hnd|done..]. }
  rewrite Hac. simpl. eexists _, cons_edges, seed_labels, agg. split; [done|]. done.
Qed.

End CleaveFacts.

Lemma bind_Ok {A B : Type} (m : result A) (f : A -> result B) b :
  m ≫= f = Ok b ↔ ∃ a, m = Ok a ∧ f a = Ok b.
Proof.
  destruct m as [a|e]; simpl; split.
  - intros Hf. by exists a.
  - by intros (a' & [= <-] & Hf).
  - done.
  - by intros (a' & [=] & _).
Qed.

Section CleaveInversion.
Context {W : Type} `{EdgeWeight W}.

Lemma seed_label_array_Ok_inv (mapper : gmap Z nat) seeds_dict init sl :
  foldR (fun seed_labels '(seed_class, seed_nodes) =>
           seed_nodes ← apply mapper seed_nodes;
           Ok (stamp seed_class seed_nodes seed_labels)) init seeds_dict = Ok sl ->
  ∀ c l x, (c, l) ∈ seeds_dict -> x ∈ l -> is_Some (mapper !! x).
Proof.
  revert init. induction seeds_dict as [|[c l] t IH]; intros init Hf c' l' x.
  - by intros ?%elem_of_nil.
  - simpl in Hf. apply bind_Ok in Hf as (sl' & Hsl' & Hf).
    apply bind_Ok in Hsl' as (idxs & Hidxs & _).
    intros [[= -> ->]|Hin]%elem_of_cons Hx; [|by eapply IH].
    apply list_elem_of_lookup in Hx as [k Hk].
    destruct (mapR_lookup _ _ _ _ _ Hidxs Hk) as (i & _ & Hap).
    unfold apply1 in Hap. destruct (mapper !! x); [done|discriminate].
Qed.

(** A call that returns was well formed and had an edge that is not a
    loop. *)
Lemma cleave_Some_Ok_inv edges (ws : list W) seeds_dict ids r :
  cleave edges ws seeds_dict (Some ids) = Ok r ->
  valid_call edges ws seeds_dict ids ∧ ∃ e, e ∈ edges ∧ e.1 <> e.2.
Proof.
  unfold cleave, cleave_call. simpl. intros Hr.
  apply bind_Ok in Hr as (rows & Hrows & Hr).
  assert (length ws = length edges) as Hlen.
  { unfold clean_sorted_edges, edges_DataFrame in Hrows.
    case_decide as Hd; [|done]. unfold sort_axis1 in Hd. by rewrite length_fmap in Hd. }
  destruct (clean_edges_spec edges ws Hlen) as (rows' & Hrows' & [Hsorted Hnd Hlast Hcompl]).
  unfold clean_edges in Hrows'. rewrite Hrows in Hrows'. injection Hrows' as <-.
  apply bind_Ok in Hr as (cons_edges & Hcons & Hr).
  apply bind_Ok in Hr as (seed_labels & Hsl & Hr).
  apply bind_Ok in Hr as ([[out dc] cuc] & Hac & _).
  assert (Hin : ∀ x, is_Some (LabelMapper ids (seq 0 (length ids)) !! x) -> x ∈ ids).
  { intros x Hx. destruct (decide (x ∈ ids)) as [|Hn]; [done|].
    rewrite LabelMapper_None in Hx; [by destruct Hx|by rewrite length_seq|done]. }
  split; [split_and!|].
  - done.
  - intros e He Hne.
    pose proof (Hcompl _ He Hne) as [k Hk]%list_elem_of_lookup.
    destruct (mapR_lookup _ _ _ _ _ Hcons Hk) as (ce & _ & [H1 H2]%apply_edge_Ok).
    assert ((sort_row e).1 ∈ ids ∧ (sort_row e).2 ∈ ids) as [? ?] by (split; apply Hin; eauto).
    destruct (sort_row_cases e) as [Hs|Hs]; rewrite Hs in *; done.
  - intros c l x Hc Hx. apply Hin. unfold seed_label_array in Hsl.
    by eapply seed_label_array_Ok_inv.
  - unfold agglomerative_clustering in Hac.
    apply bind_Ok in Hac as (_ & _ & Hac). apply bind_Ok in Hac as (m & Hm & _).
    destruct cons_edges as [|ce t]; [done|].
    apply mapR_length in Hcons. rewrite length_fmap in Hcons.
    destruct rows as [|row rows]; [done|].
    destruct (Hlast row) as (i & e & He & _ & Hs & _); [by left|].
    exists e. split; [by eapply list_elem_of_lookup_2|].
    pose proof (Hsorted row) as Hlt. rewrite <-sort_row_loop, Hs. simpl.
    specialize (Hlt ltac:(by left)). lia.
Qed.

Lemma cleave_None edges (ws : list W) seeds_dict :
  cleave edges ws seeds_dict None =
  cleave edges ws seeds_dict (Some (merge_sort Z.le (unique (flat edges)))).
Proof. done. Qed.

Lemma cleave_effective edges (ws : list W) seeds_dict node_ids :
  cleave edges ws seeds_dict node_ids =
  cleave edges ws seeds_dict (Some (effective_node_ids edges node_ids)).
Proof. by destruct node_ids. Qed.

End CleaveInversion.

Section CleaveClaims.
Context {W : Type} `{EdgeWeight W}.

(** A node that no edge of the graph touches is connected to itself only. *)
Lemma conn_isolated (E : list (nat * nat)) i j :
  (∀ u v, (u, v) ∈ E -> u <> i ∧ v <> i) -> conn E i j -> j = i.
Proof.
  intros Hiso Hc.
  set (f := fun y : nat => bool_decide (y = i)).
  assert (f i = f j) as Hinv.
  { apply (conn_invariant f E); [|done].
    intros u v [Hu Hv]%Hiso. unfold f. by rewrite !bool_decide_eq_false_2. }
  unfold f in Hinv.
  rewrite bool_decide_eq_true_2 in Hinv by done. symmetry in Hinv.
  by apply bool_decide_eq_true in Hinv.
Qed.

(** Connectivity of the consecutive graph is connectivity of the input
    graph. *)
Lemma cons_graph_conn ids edges cons_edges i j x y :
  cons_graph ids edges cons_edges ->
  conn cons_edges i j -> ids !! i = Some x -> ids !! j = Some y -> conn edges x y.
Proof.
  intros Hcg Hc Hi Hj.
  set (R := fun u v : nat => u = v ∨
          ∃ a b, ids !! u = Some a ∧ ids !! v = Some b ∧ conn edges a b).
  assert (Equivalence R) as HR.
  { split.
    - intros u. by left.
    - intros u v [->|(a & b & ? & ? & ?)]; [by left|right].
      exists b, a. split_and!; try done. by apply conn_sym.
    - intros u v w [->|(a & b & ? & ? & ?)] [->|(b' & c & ? & ? & ?)].
      + by left.
      + right. by exists b', c.
      + right. by exists a, b.
      + right. exists a, c. split_and!; try done.
        eapply conn_trans; [done|]. congruence. }
  assert (R i j) as [->|(a & b & ? & ? & ?)].
  { apply (conn_least R cons_edges); [|done].
    intros u v (a & b & ? & ? & _ & Hab)%(cg_sound _ _ _ Hcg). right.
    exists a, b. split_and!; try done.
    destruct Hab; [by apply conn_edge|by apply conn_sym, conn_edge]. }
  - assert (x = y) as -> by congruence. apply conn_refl.
  - congruence.
Qed.

(** C2, amended: for a well-formed call whose edge list holds an edge that
    is not a self-loop, a node id of [node_ids] that appears in no edge and
    in no seed list gets output label 0, and
    [contains_unlabeled_components] is [True]. *)
Theorem cleave_extra_node_unlabeled edges (ws : list W) seeds_dict ids x i :
  valid_call edges ws seeds_dict ids ->
  (∃ e, e ∈ edges ∧ e.1 <> e.2) ->
  ids !! i = Some x ->
  (∀ e, e ∈ edges -> e.1 <> x ∧ e.2 <> x) ->
  (∀ c l, (c, l) ∈ seeds_dict -> x ∉ l) ->
  ∃ r, cleave edges ws seeds_dict (Some ids) = Ok r
       ∧ node_ids r = ids
       ∧ output_labels r !! i = Some 0%Z
       ∧ contains_unlabeled_components r = true.
Proof.
  intros Hvalid Hne Hi Hedges Hseeds.
  destruct (cleave_Some_spec edges ws seeds_dict ids Hvalid Hne)
    as (r & cons_edges & sl & agg & Hr & Hids & Hcg & Hsa & Hcs & Hrs).
  exists r. split_and!; [done..| |].
  all: pose proof (sa_length _ _ _ _ Hsa) as Hsl; rewrite length_replicate in Hsl.
  all: destruct (lookup_lt_is_Some_2 agg i) as [a Ha];
    [rewrite (cs_length _ _ _ _ Hcs), Hsl; by eapply lookup_lt_Some|].
  all: assert (Halone : ∀ j, agg !! j = Some a -> sl !! j = Some 0%Z).
  1,3: intros j Hj;
    assert (j = i) as ->;
    [ apply (conn_isolated cons_edges); [|by eapply (cs_conn _ _ _ _ Hcs)];
      intros u v (x' & y' & Hu & Hv & _ & Hin)%(cg_sound _ _ _ Hcg);
      destruct Hin as [[? ?]%Hedges|[? ?]%Hedges]; simpl in *;
      split; intros ->; congruence
    | destruct (lookup_lt_is_Some_2 sl i) as [s Hs];
      [rewrite Hsl; by eapply lookup_lt_Some|];
      rewrite Hs; f_equal;
      destruct (sa_from _ _ _ _ Hsa _ _ Hs) as [[-> _]%lookup_replicate|(l & x' & Hc & Hx' & Hm)];
      [done|];
      apply mapper_Some in Hm; assert (x' = x) as -> by congruence;
      by apply Hseeds in Hc ].
  - by apply (rs_unseeded _ _ _ _ _ Hrs i a).
  - apply (rs_unlabeled _ _ _ _ _ Hrs). by exists i, a.
Qed.


End CleaveClaims.

Lemma elem_of_flat {A : Type} (edges : list (A * A)) x :
  x ∈ flat edges ↔ ∃ e, e ∈ edges ∧ (x = e.1 ∨ x = e.2).
Proof.
  unfold flat. rewrite list_elem_of_bind. split.
  - intros (e & Hx & He). exists e. split; [done|].
    apply elem_of_cons in Hx as [->|Hx]; [by left|].
    apply list_elem_of_singleton in Hx. by right.
  - intros (e & He & [->| ->]); exists e; (split; [|done]).
    + by left.
    + right. by left.
Qed.

Lemma three_distinct_length {A : Type} (l : list A) x y z :
  NoDup l -> x ∈ l -> y ∈ l -> z ∈ l -> x <> y -> x <> z -> y <> z -> 3 ≤ length l.
Proof.
  intros Hnd Hx Hy Hz Hxy Hxz Hyz.
  assert ([x; y; z] ⊆+ l) as Hsub.
  { apply NoDup_submseteq.
    - repeat constructor; set_solver.
    - intros w. rewrite !elem_of_cons, elem_of_nil. naive_solver. }
  apply submseteq_length in Hsub. done.
Qed.

Section TwoTriangles.
Context {W : Type} `{EdgeWeight W}.

(** C1: two disjoint triangles [A] and [B] without an edge between them,
    every node of [A] seeded with class 1 and every node of [B] with class
    2: [cleave] returns label 1 for the nodes of [A] and label 2 for the
    nodes of [B], in [node_ids] order, no disconnected component and
    [contains_unlabeled_components = False]. *)
Theorem cleave_two_triangles (ws : list W) edges given_ids a1 a2 a3 b1 b2 b3 :
  let A := [a1; a2; a3] in
  let B := [b1; b2; b3] in
  let ids := effective_node_ids edges given_ids in
  NoDup (A ++ B) ->
  length ws = length edges ->
  (∀ e, e ∈ edges -> (e.1 ∈ A ∧ e.2 ∈ A) ∨ (e.1 ∈ B ∧ e.2 ∈ B)) ->
  has_edge edges a1 a2 -> has_edge edges a2 a3 -> has_edge edges a1 a3 ->
  has_edge edges b1 b2 -> has_edge edges b2 b3 -> has_edge edges b1 b3 ->
  (∀ l, given_ids = Some l -> l ≡ₚ A ++ B) ->
  cleave edges ws [(1%Z, A); (2%Z, B)] given_ids =
  Ok (CleaveResultsOf ids
        ((fun x => if decide (x ∈ A) then 1%Z else 2%Z) <$> ids) ∅ false).
Proof.
  intros A B ids HndAB Hlen Hsides Ha12 Ha23 Ha13 Hb12 Hb23 Hb13 Hperm.
  rewrite cleave_effective. fold ids.
  set (cls := fun x : Z => if decide (x ∈ A) then 1%Z else 2%Z).
  assert (HAB : ∀ x, x ∈ A -> x ∈ B -> False).
  { intros x HxA HxB. apply NoDup_app in HndAB as (_ & Hd & _). by apply (Hd x). }
  (* the node list holds the six nodes, once each *)
  assert (Hids : ids ≡ₚ A ++ B).
  { unfold ids, effective_node_ids. destruct given_ids as [l|]; [by apply Hperm|].
    apply NoDup_Permutation; [|done|].
    - rewrite merge_sort_Permutation. apply drop_duplicates_id_NoDup.
    - intros x. rewrite merge_sort_Permutation, elem_of_unique, elem_of_flat, elem_of_app.
      split.
      + intros (e & He & [->| ->]); destruct (Hsides e He) as [[? ?]|[? ?]]; auto.
      + assert (∀ x y, has_edge edges x y ->
                  (∃ e, e ∈ edges ∧ (x = e.1 ∨ x = e.2))
                  ∧ (∃ e, e ∈ edges ∧ (y = e.1 ∨ y = e.2))) as Hends.
        { intros u v [Huv|Huv]; split; eexists; (split; [exact Huv|]); simpl; auto. }
        unfold A, B. rewrite !elem_of_cons, !elem_of_nil.
        intros [[->|[->|[->|[]]]]|[->|[->|[->|[]]]]].
        * apply (Hends _ _ Ha12). * apply (Hends _ _ Ha23). * apply (Hends _ _ Ha23).
        * apply (Hends _ _ Hb12). * apply (Hends _ _ Hb23). * apply (Hends _ _ Hb23). }
  assert (Hndids : NoDup ids) by by rewrite Hids.
  assert (Hin : ∀ x, x ∈ ids ↔ x ∈ A ∨ x ∈ B).
  { intros x. by rewrite Hids, elem_of_app. }
  assert (Ha1a2 : a1 <> a2 ∧ (a1 ∈ A ∧ a2 ∈ A ∧ a3 ∈ A) ∧ (b1 ∈ B ∧ b2 ∈ B ∧ b3 ∈ B)).
  { split; [|unfold A, B; set_solver].
    apply NoDup_cons in HndAB as [Hn _]. intros ->. apply Hn. by left. }
  destruct Ha1a2 as (Ha1a2 & (HA1 & HA2 & HA3) & (HB1 & HB2 & HB3)).
  destruct (cleave_Some_spec edges ws [(1%Z, A); (2%Z, B)] ids)
    as (r & cons_edges & sl & agg & Hr & Hrids & Hcg & Hsa & Hcs & Hrs).
  { split_and!; [done| |].
    - intros e He _. rewrite !Hin. destruct (Hsides e He) as [[? ?]|[? ?]]; auto.
    - intros c l x Hc Hx. apply Hin.
      apply elem_of_cons in Hc as [[= -> ->]|Hc]; [by left|].
      apply list_elem_of_singleton in Hc as [= -> ->]. by right. }
  { destruct Ha12 as [He|He]; eexists; (split; [exact He|]); simpl; congruence. }
  rewrite Hr. f_equal.
  pose proof (sa_length _ _ _ _ Hsa) as Hsl. rewrite length_replicate in Hsl.
  pose proof (cs_length _ _ _ _ Hcs) as Hagg. rewrite Hsl in Hagg.
  (* seed labels *)
  assert (Hseed : ∀ i x, ids !! i = Some x -> sl !! i = Some (cls x)).
  { intros i x Hi.
    assert (x ∈ A ∨ x ∈ B) as Hx by (apply Hin; by eapply list_elem_of_lookup_2).
    assert (∃ c l, (c, l) ∈ [(1%Z, A); (2%Z, B)] ∧ x ∈ l) as (c & l & Hc & Hxl).
    { destruct Hx; [exists 1%Z, A|exists 2%Z, B]; (split; [|done]); set_solver. }
    destruct (sa_stamped _ _ _ _ Hsa c l x i Hc Hxl (mapper_NoDup _ _ _ Hndids Hi))
      as (c' & l' & x' & -> & Hc' & Hx' & Hm).
    apply mapper_Some in Hm. assert (x' = x) as -> by congruence.
    f_equal. unfold cls.
    apply elem_of_cons in Hc' as [[= -> ->]|Hc'].
    - by rewrite decide_True.
    - apply list_elem_of_singleton in Hc' as [= -> ->].
      rewrite decide_False; [done|]. intros ?. by eapply HAB. }
  assert (Hcls0 : ∀ x, cls x <> 0%Z) by (intros x; unfold cls; by case_decide).
  assert (Hcls12 : ∀ x, cls x ∈ [1%Z; 2%Z]).
  { intros x. unfold cls. case_decide; set_solver. }
  (* the clustering stops at two clusters at the earliest *)
  assert (Hstop : count_classes sl ≤ 2).
  { unfold count_classes.
    assert (filter (fun s : Z => s <> 0%Z) (unique sl) ⊆+ [1%Z; 2%Z]) as Hsub.
    { apply NoDup_submseteq; [apply NoDup_filter, drop_duplicates_id_NoDup|].
      intros s [_ Hs]%list_elem_of_filter.
      rewrite elem_of_unique in Hs. apply list_elem_of_lookup in Hs as [i Hi].
      destruct (lookup_lt_is_Some_2 ids i) as [x Hx].
      { rewrite <-Hsl. by eapply lookup_lt_Some. }
      rewrite (Hseed _ _ Hx) in Hi. injection Hi as <-. apply Hcls12. }
    by apply submseteq_length in Hsub. }
  (* nodes of one cluster are on the same side *)
  assert (Hside : ∀ i j x y rr, ids !! i = Some x -> ids !! j = Some y ->
            agg !! i = Some rr -> agg !! j = Some rr -> cls x = cls y).
  { intros i j x y rr Hi Hj Hri Hrj.
    pose proof (cs_conn _ _ _ _ Hcs _ _ _ Hri Hrj) as Hc.
    pose proof (cons_graph_conn _ _ _ _ _ _ _ Hcg Hc Hi Hj) as Hxy.
    apply (conn_invariant cls edges); [|done].
    intros u v Huv. unfold cls.
    destruct (Hsides _ Huv) as [[? ?]|[Hu Hv]]; simpl in *.
    - by rewrite !decide_True.
    - rewrite !decide_False; [done|intros ?; by eapply HAB..]. }
  (* positions of the nodes, and their clusters *)
  assert (Hpos : ∀ x, x ∈ A ∨ x ∈ B ->
            ∃ i rr, ids !! i = Some x ∧ agg !! i = Some rr) .
  { intros x [i Hi]%Hin%list_elem_of_lookup.
    destruct (lookup_lt_is_Some_2 agg i) as [rr Hrr].
    { rewrite Hagg. by eapply lookup_lt_Some. }
    by exists i, rr. }
  (* an edge inside a triangle is contracted *)
  assert (Hjoin : ∀ x y z i j rx ry, has_edge edges x y -> x <> y ->
            cls x = cls y -> cls z <> cls x -> (z ∈ A ∨ z ∈ B) ->
            ids !! i = Some x -> ids !! j = Some y ->
            agg !! i = Some rx -> agg !! j = Some ry -> rx = ry).
  { intros x y z i j rx ry Hxy Hne Hc Hz Hzin Hi Hj Hrx Hry.
    destruct (Hpos z Hzin) as (k & rz & Hk & Hrz).
    destruct (cs_done _ _ _ _ Hcs i j (cls x)) as [Heq|Hfew].
    - pose proof (mapper_NoDup _ _ _ Hndids Hi) as Hmi.
      pose proof (mapper_NoDup _ _ _ Hndids Hj) as Hmj.
      destruct Hxy as [Hxy|Hxy].
      + by apply (cg_complete _ _ _ Hcg x y).
      + destruct (cg_complete _ _ _ Hcg y x j i) as [?|?]; auto.
    - by apply Hseed.
    - rewrite Hc. by apply Hseed.
    - done.
    - congruence.
    - destruct (decide (rx = ry)) as [|Hd]; [done|exfalso].
      assert (3 ≤ length (remove_dups agg)); [|lia].
      apply (three_distinct_length _ rx ry rz).
      + apply NoDup_remove_dups.
      + apply elem_of_remove_dups. by eapply list_elem_of_lookup_2.
      + apply elem_of_remove_dups. by eapply list_elem_of_lookup_2.
      + apply elem_of_remove_dups. by eapply list_elem_of_lookup_2.
      + done.
      + intros ->. apply Hz. symmetry. by eapply (Hside i k).
      + intros ->. apply Hz. rewrite Hc. symmetry. by eapply (Hside j k). }
  assert (HclsA : ∀ x, x ∈ A -> cls x = 1%Z) by (intros; unfold cls; by rewrite decide_True).
  assert (HclsB : ∀ x, x ∈ B -> cls x = 2%Z).
  { intros x Hx. unfold cls. rewrite decide_False; [done|]. intros ?. by eapply HAB. }
  (* nodes of one triangle are in one cluster *)
  assert (Hsame : ∀ i j x y rx ry, ids !! i = Some x -> ids !! j = Some y ->
            agg !! i = Some rx -> agg !! j = Some ry -> cls x = cls y -> rx = ry).
  { assert (Hndl : ∀ p q r0 : Z, NoDup [p; q; r0] -> p <> q ∧ q <> r0 ∧ p <> r0).
    { intros p q r0 Hn. apply NoDup_cons in Hn as [Hp Hn].
      apply NoDup_cons in Hn as [Hq _]. set_solver. }
    assert (NoDup A ∧ NoDup B) as [HndA HndB].
    { apply NoDup_app in HndAB as (? & _ & ?). done. }
    destruct (Hndl _ _ _ HndA) as (Hn12 & Hn23 & Hn13).
    destruct (Hndl _ _ _ HndB) as (Hm12 & Hm23 & Hm13).
    destruct (Hpos a1) as (i1 & r1 & Hi1 & Hr1); [by left|].
    destruct (Hpos a2) as (i2 & r2 & Hi2 & Hr2); [by left|].
    destruct (Hpos a3) as (i3 & r3 & Hi3 & Hr3); [by left|].
    destruct (Hpos b1) as (j1 & s1 & Hj1 & Hs1); [by right|].
    destruct (Hpos b2) as (j2 & s2 & Hj2 & Hs2); [by right|].
    destruct (Hpos b3) as (j3 & s3 & Hj3 & Hs3); [by right|].
    pose proof (HclsA _ HA1) as Hc1. pose proof (HclsA _ HA2) as Hc2.
    pose proof (HclsA _ HA3) as Hc3. pose proof (HclsB _ HB1) as Hd1.
    pose proof (HclsB _ HB2) as Hd2. pose proof (HclsB _ HB3) as Hd3.
    assert (r1 = r2) as <-.
    { apply (Hjoin a1 a2 b1 i1 i2 r1 r2 Ha12 Hn12); [congruence|congruence|by right|done..]. }
    assert (r1 = r3) as <-.
    { apply (Hjoin a1 a3 b1 i1 i3 r1 r3 Ha13 Hn13); [congruence|congruence|by right|done..]. }
    assert (s1 = s2) as <-.
    { apply (Hjoin b1 b2 a1 j1 j2 s1 s2 Hb12 Hm12); [congruence|congruence|by left|done..]. }
    assert (s1 = s3) as <-.
    { apply (Hjoin b1 b3 a1 j1 j3 s1 s3 Hb13 Hm13); [congruence|congruence|by left|done..]. }
    assert (Hcl : ∀ i x rx, ids !! i = Some x -> agg !! i = Some rx ->
              rx = if decide (x ∈ A) then r1 else s1).
    { intros i x rx Hi Hrx.
      assert (x ∈ A ∨ x ∈ B) as [HxA|HxB] by (apply Hin; by eapply list_elem_of_lookup_2).
      - rewrite decide_True by done. unfold A in HxA.
        rewrite !elem_of_cons, elem_of_nil in HxA.
        destruct HxA as [->|[->|[->|[]]]].
        + assert (i = i1) as -> by exact (NoDup_lookup ids i i1 _ Hndids Hi Hi1). congruence.
        + assert (i = i2) as -> by exact (NoDup_lookup ids i i2 _ Hndids Hi Hi2). congruence.
        + assert (i = i3) as -> by exact (NoDup_lookup ids i i3 _ Hndids Hi Hi3). congruence.
      - rewrite decide_False by (intros ?; by eapply HAB). unfold B in HxB.
        rewrite !elem_of_cons, elem_of_nil in HxB.
        destruct HxB as [->|[->|[->|[]]]].
        + assert (i = j1) as -> by exact (NoDup_lookup ids i j1 _ Hndids Hi Hj1). congruence.
        + assert (i = j2) as -> by exact (NoDup_lookup ids i j2 _ Hndids Hi Hj2). congruence.
        + assert (i = j3) as -> by exact (NoDup_lookup ids i j3 _ Hndids Hi Hj3). congruence. }
    intros i j x y rx ry Hi Hj Hrx Hry Hc.
    rewrite (Hcl _ _ _ Hi Hrx), (Hcl _ _ _ Hj Hry). unfold cls in Hc.
    repeat case_decide; congruence. }
  destruct r as [rids out dc cuc]. simpl in *. subst rids. f_equal.
  - (* output labels *)
    apply list_eq. intros i. rewrite list_lookup_fmap.
    destruct (ids !! i) as [x|] eqn:Hi; simpl.
    + destruct (lookup_lt_is_Some_2 agg i) as [ri Hri].
      { rewrite Hagg. by eapply lookup_lt_Some. }
      destruct (rs_some _ _ _ _ _ Hrs i ri Hri) as (s & Hout & Hs0).
      { exists i, (cls x). split_and!; [done|by apply Hseed|done]. }
      rewrite Hout. f_equal.
      destruct (rs_seeded _ _ _ _ _ Hrs _ _ _ Hri Hout Hs0) as (j & Hj & Hsj).
      destruct (lookup_lt_is_Some_2 ids j) as [y Hy].
      { rewrite <-Hsl. by eapply lookup_lt_Some. }
      rewrite (Hseed _ _ Hy) in Hsj. injection Hsj as <-.
      symmetry. by eapply (Hside i j).
    + apply lookup_ge_None. rewrite (rs_length _ _ _ _ _ Hrs), Hagg.
      by apply lookup_ge_None.
  - (* no disconnected component *)
    apply set_eq. intros c. rewrite (rs_disconnected _ _ _ _ _ Hrs). split; [|set_solver].
    intros (_ & i & j & ra & rb & Hsi & Hsj & Hra & Hrb & Hne). exfalso. apply Hne.
    destruct (lookup_lt_is_Some_2 ids i) as [x Hx].
    { rewrite <-Hsl. by eapply lookup_lt_Some. }
    destruct (lookup_lt_is_Some_2 ids j) as [y Hy].
    { rewrite <-Hsl. by eapply lookup_lt_Some. }
    rewrite (Hseed _ _ Hx) in Hsi. rewrite (Hseed _ _ Hy) in Hsj.
    apply (Hsame i j x y); try done. congruence.
  - (* no unlabeled component *)
    destruct cuc; [exfalso|done].
    destruct (proj1 (rs_unlabeled _ _ _ _ _ Hrs) eq_refl) as (i & a & Ha & Hall).
    destruct (lookup_lt_is_Some_2 ids i) as [x Hx].
    { rewrite <-Hagg. by eapply lookup_lt_Some. }
    specialize (Hall _ Ha). rewrite (Hseed _ _ Hx) in Hall. injection Hall as Hall.
    by apply (Hcls0 x).
Qed.

End TwoTriangles.

(** ** The claims about [cleave] on sample inputs *)

Ltac by_computation := apply (bool_decide_unpack _); vm_compute; exact I.

(** Case analysis on membership in a list that is written out. *)
Ltac elem_cases H :=
  repeat (apply elem_of_cons in H as [H|H]); try (by apply elem_of_nil in H).

Lemma cleave_two_triangles_witness :
  cleave triangles_edges triangles_weights triangles_seeds None =
  Ok (CleaveResultsOf [10; 20; 30; 40; 50; 60]%Z [1; 1; 1; 2; 2; 2]%Z ∅ false).
Proof.
  apply (cleave_two_triangles triangles_weights triangles_edges None
           10 20 30 40 50 60).
  - by_computation.
  - reflexivity.
  - apply Forall_forall. by_computation.
  - by_computation.
  - by_computation.
  - by_computation.
  - by_computation.
  - by_computation.
  - by_computation.
  - intros l Hl. discriminate Hl.
Defined.

Lemma cleave_extra_node_unlabeled_witness :
  ∃ r, cleave triangles_edges triangles_weights triangles_seeds
         (Some [10; 20; 30; 40; 50; 60; 70]%Z) = Ok r
       ∧ node_ids r = [10; 20; 30; 40; 50; 60; 70]%Z
       ∧ output_labels r !! 6 = Some 0%Z
       ∧ contains_unlabeled_components r = true.
Proof.
  apply (cleave_extra_node_unlabeled triangles_edges triangles_weights triangles_seeds
           [10; 20; 30; 40; 50; 60; 70]%Z 70%Z 6).
  - split_and!.
    + reflexivity.
    + intros e He _. revert e He. apply Forall_forall. by_computation.
    + intros c l x Hc Hx. unfold triangles_seeds in Hc.
      elem_cases Hc; simplify_eq; elem_cases Hx; subst; by_computation.
  - exists (10, 20)%Z. split; by_computation.
  - reflexivity.
  - apply Forall_forall. by_computation.
  - intros c l Hc. unfold triangles_seeds in Hc.
    elem_cases Hc; simplify_eq; by_computation.
Defined.

(** C2 as stated fails: the edge list [[(3,3)]] is not empty, node 4 is in
    no edge and in no seed list, and the call raises [ValueError] (the
    cleaned edge array is empty and has no minimum). *)
Lemma cleave_loops_only_raises :
  [(3, 3)%Z] <> []
  ∧ cleave [(3, 3)%Z] [weight_of 1] [] (Some [3; 4]%Z) = Raise ValueError.
Proof. split; [done|]. vm_compute. reflexivity. Qed.



(** ** Edge cleaning and the caller's arrays *)

(** C4: the edge cleaning of [cleave] puts every pair in ascending order,
    keeps one row per unordered pair, the one listed last with its weight,
    and drops the self-loops; edges [(2,1), (1,2), (3,3)] with weights
    [5, 9, 1] become the single edge (1,2) with weight 9. *)
Theorem cleave_edge_cleaning :
  (∀ (W : Type) (edges : list (Z * Z)) (edge_weights : list W),
     length edge_weights = length edges ->
     ∃ rows, clean_edges edges edge_weights = Ok rows
             ∧ clean_spec edges edge_weights rows)
  ∧ clean_edges [(2, 1); (1, 2); (3, 3)]%Z [5; 9; 1]%Z = Ok [EdgeRow 1 2 9]%Z.
Proof. split; [intros W; apply clean_edges_spec|reflexivity]. Qed.

Lemma cleave_edge_cleaning_witness :
  ∃ rows, clean_edges [(2, 1); (1, 2); (3, 3)]%Z [5; 9; 1]%Z = Ok rows
          ∧ clean_spec [(2, 1); (1, 2); (3, 3)]%Z [5; 9; 1]%Z rows.
Proof. apply (proj1 cleave_edge_cleaning Z). reflexivity. Defined.

(** The cleaned table is the one [cleave] goes on with. *)
Lemma cleave_call_cleans {W : Type} `{EdgeWeight W} (c : caller_data W) node_ids e :
  clean_edges (c_edges c) (c_edge_weights c) = Raise e ->
  (cleave_call c node_ids).2 = Raise e.
Proof. unfold cleave_call, clean_edges. simpl. by intros ->. Qed.



(** ** Further properties of [cleave] and [agglomerative_clustering] *)

Section CleaveExtras.
Context {W : Type} `{EdgeWeight W}.

(** X1: the relabelling at the end of [agglomerative_clustering] (lines
    216-246) returns for every seed array and cluster array of one length,
    whatever the clustering produced: a node of a cluster without seeded
    node gets 0, a label other than 0 is a seed class of a node of the same
    cluster, a seed class is reported as disconnected exactly when it seeds
    nodes of two clusters, and the unlabeled flag is set exactly when some
    cluster has no seeded node. *)
Theorem relabel_clusters_returns (seed_labels : list Z) (agg : list nat) :
  length seed_labels = length agg ->
  ∃ out dc cuc,
    relabel_clusters seed_labels agg = Ok (out, dc, cuc)
    ∧ length out = length agg
    ∧ (∀ i a, agg !! i = Some a ->
         (∀ j, agg !! j = Some a -> seed_labels !! j = Some 0%Z) ->
         out !! i = Some 0%Z)
    ∧ (∀ i a s, agg !! i = Some a -> out !! i = Some s -> s <> 0%Z ->
         ∃ j, agg !! j = Some a ∧ seed_labels !! j = Some s)
    ∧ (∀ c, c ∈ dc ↔
         c <> 0%Z ∧ ∃ i j a a', seed_labels !! i = Some c ∧ seed_labels !! j = Some c
                     ∧ agg !! i = Some a ∧ agg !! j = Some a' ∧ a <> a')
    ∧ (cuc = true ↔
         ∃ i a, agg !! i = Some a
                ∧ ∀ j, agg !! j = Some a -> seed_labels !! j = Some 0%Z).
Proof.
  intros Hlen.
  destruct (relabel_clusters_spec seed_labels agg Hlen) as (out & dc & cuc & Hr & Hs).
  exists out, dc, cuc. destruct Hs. split_and!; done.
Qed.



(** X4: without [node_ids], [cleave] works on the ends of the edges: the
    node ids it returns are in ascending order, without repetition, and are
    exactly the node ids that occur in [edges]. *)
Theorem cleave_default_node_ids edges (ws : list W) seeds_dict r :
  cleave edges ws seeds_dict None = Ok r ->
  Sorted Z.le (node_ids r)
  ∧ NoDup (node_ids r)
  ∧ ∀ x, x ∈ node_ids r ↔ ∃ e, e ∈ edges ∧ (x = e.1 ∨ x = e.2).
Proof.
  rewrite cleave_None. intros Hr.
  destruct (cleave_Some_Ok_inv _ _ _ _ _ Hr) as [Hvalid Hne].
  destruct (cleave_Some_spec edges ws seeds_dict _ Hvalid Hne)
    as (r' & _ & _ & _ & Hr' & Hids & _).
  rewrite Hr in Hr'. injection Hr' as <-. rewrite Hids.
  split_and!.
  - apply Sorted_merge_sort. intros x y. lia.
  - rewrite merge_sort_Permutation. apply drop_duplicates_id_NoDup.
  - intros x. by rewrite merge_sort_Permutation, elem_of_unique, elem_of_flat.
Qed.

(** X6: [cleave] reads the edges as undirected: writing any of the edges
    with its two ends exchanged changes nothing in what a call with a given
    node list returns or raises. *)
Theorem cleave_edge_direction edges edges' (ws : list W) seeds_dict ids :
  Forall2 (fun e e' => e' = e ∨ e' = (e.2, e.1)) edges edges' ->
  cleave edges' ws seeds_dict (Some ids) = cleave edges ws seeds_dict (Some ids).
Proof.
  intros Hsw. unfold cleave, cleave_call. simpl.
  assert (sort_axis1 edges' = sort_axis1 edges) as ->; [|done].
  unfold sort_axis1. induction Hsw as [|[a b] e' t t' He _ IH]; [done|].
  rewrite !fmap_cons, IH. f_equal.
  destruct He as [->| ->]; [done|]. simpl. apply sort_row_swap.
Qed.

End CleaveExtras.

(** X5: cleaning is idempotent: the cleaned table, written back as an edge
    array and a weight array, is cleaned to itself. *)
Theorem clean_edges_idempotent {W : Type} (edges : list (Z * Z)) (ws : list W) rows :
  clean_edges edges ws = Ok rows ->
  clean_edges (row_uv <$> rows) (row_weight <$> rows) = Ok rows.
Proof.
  intros Hrows.
  assert (length ws = length edges) as Hlen.
  { unfold clean_edges, clean_sorted_edges, edges_DataFrame in Hrows.
    case_decide as Hd; [|done]. unfold sort_axis1 in Hd. by rewrite length_fmap in Hd. }
  destruct (clean_edges_spec edges ws Hlen) as (rows' & Hrows' & [Hsorted Hnd _ _]).
  rewrite Hrows in Hrows'. injection Hrows' as <-. clear Hrows.
  unfold clean_edges, clean_sorted_edges, edges_DataFrame.
  rewrite decide_True by (unfold sort_axis1; by rewrite !length_fmap).
  simpl. f_equal.
  assert (zip_with (fun (e : Z * Z) (w : W) => EdgeRow e.1 e.2 w)
            (sort_axis1 (row_uv <$> rows)) (row_weight <$> rows) = rows) as ->.
  { clear Hnd. induction rows as [|[u v w] t IH]; [done|].
    unfold sort_axis1 in *. rewrite !fmap_cons. simpl.
    rewrite sort_row_sorted.
    - simpl. f_equal. apply IH. intros r Hr. apply Hsorted. by right.
    - simpl. specialize (Hsorted (EdgeRow u v w) ltac:(by left)). simpl in Hsorted. lia. }
  assert (drop_duplicates_last row_uv rows = rows) as ->.
  { clear Hsorted. induction rows as [|r t IH]; [done|]. simpl.
    rewrite fmap_cons in Hnd. apply NoDup_cons in Hnd as [Hr Hnd].
    rewrite decide_False by done. f_equal. by apply IH. }
  clear Hnd. induction rows as [|r t IH]; [done|].
  rewrite filter_cons. rewrite decide_True.
  - f_equal. apply IH. intros r' Hr'. apply Hsorted. by right.
  - specialize (Hsorted r ltac:(by left)). lia.
Qed.

Lemma relabel_clusters_returns_witness :
  ∃ out dc cuc,
    relabel_clusters [1; 0; 2; 0]%Z [0; 0; 2; 3] = Ok (out, dc, cuc)
    ∧ length out = 4
    ∧ (∀ i a, [0; 0; 2; 3] !! i = Some a ->
         (∀ j, [0; 0; 2; 3] !! j = Some a -> [1; 0; 2; 0]%Z !! j = Some 0%Z) ->
         out !! i = Some 0%Z)
    ∧ (∀ i a s, [0; 0; 2; 3] !! i = Some a -> out !! i = Some s -> s <> 0%Z ->
         ∃ j, [0; 0; 2; 3] !! j = Some a ∧ [1; 0; 2; 0]%Z !! j = Some s)
    ∧ (∀ c, c ∈ dc ↔
         c <> 0%Z ∧ ∃ i j a a', [1; 0; 2; 0]%Z !! i = Some c ∧ [1; 0; 2; 0]%Z !! j = Some c
                     ∧ [0; 0; 2; 3] !! i = Some a ∧ [0; 0; 2; 3] !! j = Some a' ∧ a <> a')
    ∧ (cuc = true ↔
         ∃ i a, [0; 0; 2; 3] !! i = Some a
                ∧ ∀ j, [0; 0; 2; 3] !! j = Some a -> [1; 0; 2; 0]%Z !! j = Some 0%Z).
Proof. apply (relabel_clusters_returns [1; 0; 2; 0]%Z [0; 0; 2; 3]). reflexivity. Defined.


Lemma cleave_default_node_ids_witness :
  let r := CleaveResultsOf [10; 20; 30; 40; 50; 60]%Z [1; 1; 1; 2; 2; 2]%Z ∅ false in
  Sorted Z.le (node_ids r)
  ∧ NoDup (node_ids r)
  ∧ ∀ x, x ∈ node_ids r ↔ ∃ e, e ∈ triangles_edges ∧ (x = e.1 ∨ x = e.2).
Proof.
  intros r.
  apply (cleave_default_node_ids triangles_edges triangles_weights triangles_seeds r).
  vm_compute. reflexivity.
Defined.

Lemma cleave_edge_direction_witness :
  cleave [(2, 1); (2, 3)]%Z [weight_of 1; weight_of 2] [(1, [1]); (2, [3])]%Z
         (Some [1; 2; 3]%Z)
  = cleave [(1, 2); (2, 3)]%Z [weight_of 1; weight_of 2] [(1, [1]); (2, [3])]%Z
           (Some [1; 2; 3]%Z).
Proof.
  apply (cleave_edge_direction [(1, 2); (2, 3)]%Z [(2, 1); (2, 3)]%Z).
  constructor; [by right|]. constructor; [by left|]. constructor.
Defined.

Lemma clean_edges_idempotent_witness :
  clean_edges (row_uv <$> [EdgeRow 1 2 9]%Z) (row_weight <$> [EdgeRow 1 2 9]%Z)
  = Ok [EdgeRow 1 2 9]%Z.
Proof.
  apply (clean_edges_idempotent [(2, 1); (1, 2); (3, 3)]%Z [5; 9; 1]%Z).
  reflexivity.
Defined.

(** ** util.py: uuids_match, round_coord, round_box *)

Lemma take_length_prefix {A : Type} `{EqDecision A} (l1 l2 : list A) :
  take (length l1) l2 = l1 ↔ l1 `prefix_of` l2.
Proof.
  split.
  - intros <-. apply prefix_take.
  - intros [k ->]. by rewrite take_app_length.
Qed.

Lemma uuids_match_eq (uuid1 uuid2 : list Ascii.ascii) :
  uuids_match uuid1 uuid2 =
  if bool_decide (uuid1 = [] ∨ uuid2 = []) then Raise AssertionError
  else Ok (bool_decide (uuid1 `prefix_of` uuid2 ∨ uuid2 `prefix_of` uuid1)).
Proof.
  unfold uuids_match.
  destruct (decide (uuid1 = [] ∨ uuid2 = [])) as [He|Hne].
  - rewrite (bool_decide_eq_true_2 _ He).
    rewrite (bool_decide_eq_false_2 (uuid1 <> [] ∧ uuid2 <> [])); [reflexivity|].
    intros [? ?]. tauto.
  - rewrite (bool_decide_eq_false_2 _ Hne).
    rewrite (bool_decide_eq_true_2 (uuid1 <> [] ∧ uuid2 <> []))
      by (split; intros ->; tauto).
    simpl.
    case_bool_decide as Hlen; f_equal; apply bool_decide_ext;
      rewrite take_length_prefix.
    + split; [by right|]. intros [Hp|Hp]; [|done].
      apply prefix_length in Hp. lia.
    + split; [by left|]. intros [Hp|Hp]; [done|].
      pose proof (prefix_length _ _ Hp) as Hl.
      assert (length uuid1 = length uuid2) as Heq by lia.
      destruct Hp as [k Hk]. rewrite Hk, length_app in Heq.
      destruct k; [|simpl in Heq; lia]. rewrite app_nil_r in Hk. by subst.
Qed.

(** X7: [uuids_match] raises [AssertionError] when one of the two strings is
    empty, and otherwise tells whether one of them is a prefix of the
    other. *)
Theorem uuids_match_prefix (uuid1 uuid2 : list Ascii.ascii) :
  uuids_match uuid1 uuid2 =
  if bool_decide (uuid1 = [] ∨ uuid2 = []) then Raise AssertionError
  else Ok (bool_decide (uuid1 `prefix_of` uuid2 ∨ uuid2 `prefix_of` uuid1)).
Proof. apply uuids_match_eq. Qed.

(** X8: [uuids_match] does not depend on the order of its two arguments. *)
Theorem uuids_match_sym (uuid1 uuid2 : list Ascii.ascii) :
  uuids_match uuid1 uuid2 = uuids_match uuid2 uuid1.
Proof.
  rewrite !uuids_match_eq.
  rewrite (bool_decide_ext (uuid1 = [] ∨ uuid2 = []) (uuid2 = [] ∨ uuid1 = [])) by tauto.
  case_bool_decide; [done|]. f_equal. apply bool_decide_ext. tauto.
Qed.

(** X9: for a positive grid spacing, [round_coord] returns a multiple of
    the spacing: with 'down' the largest one that is not above the
    coordinate, with 'up' the least one that is not below it; any other
    direction is refused. *)
Theorem round_coord_grid (coord grid_spacing : Z) (how : String.string) :
  (0 < grid_spacing)%Z ->
  (how = "down"%string ->
     ∃ d, round_coord coord grid_spacing how = Ok d
          ∧ (d mod grid_spacing = 0 ∧ d ≤ coord < d + grid_spacing)%Z)
  ∧ (how = "up"%string ->
     ∃ u, round_coord coord grid_spacing how = Ok u
          ∧ (u mod grid_spacing = 0 ∧ coord ≤ u < coord + grid_spacing)%Z)
  ∧ (how <> "down"%string -> how <> "up"%string ->
     round_coord coord grid_spacing how = Raise AssertionError).
Proof.
  intros Hg. split_and!.
  - intros ->. eexists. split; [reflexivity|].
    split; [by apply Z.mod_mul; lia|].
    pose proof (Z.mul_div_le coord grid_spacing Hg).
    pose proof (Z.mul_succ_div_gt coord grid_spacing Hg). lia.
  - intros ->. eexists. split; [reflexivity|].
    split; [by apply Z.mod_mul; lia|].
    pose proof (Z.mul_div_le (coord + grid_spacing - 1) grid_spacing Hg).
    pose proof (Z.mul_succ_div_gt (coord + grid_spacing - 1) grid_spacing Hg). lia.
  - intros H1 H2. unfold round_coord.
    rewrite (bool_decide_eq_false_2 (how = "down"%string ∨ how = "up"%string));
      [reflexivity|tauto].
Qed.

Lemma round_coord_grid_witness :
  (∃ d, round_coord 7 5 "down" = Ok d ∧ (d mod 5 = 0 ∧ d ≤ 7 < d + 5)%Z)
  ∧ (∃ u, round_coord 7 5 "up" = Ok u ∧ (u mod 5 = 0 ∧ 7 ≤ u < 7 + 5)%Z).
Proof.
  destruct (round_coord_grid 7 5 "down" ltac:(lia)) as (Hd & _ & _).
  destruct (round_coord_grid 7 5 "up" ltac:(lia)) as (_ & Hu & _).
  split; [by apply Hd|by apply Hu].
Defined.

Lemma round_coord_down_Ok c g : round_coord c g "down" = Ok ((c / g) * g)%Z.
Proof. reflexivity. Qed.

Lemma round_coord_up_Ok c g : round_coord c g "up" = Ok (((c + g - 1) / g) * g)%Z.
Proof. reflexivity. Qed.




(** The values of the example of the docstrings. *)
Example round_box_example :
  round_box ([1; 2], [7; 9])%Z 5 "out" = Ok ([0; 0], [10; 10])%Z
  ∧ round_box ([1; 2], [7; 9])%Z 5 "in" = Ok ([5; 5], [5; 5])%Z
  ∧ uuids_match (String.list_ascii_of_string "abcd")
                (String.list_ascii_of_string "abcdef") = Ok true
  ∧ uuids_match (String.list_ascii_of_string "abc9")
                (String.list_ascii_of_string "abcdef") = Ok false.
Proof. split_and!; reflexivity. Qed.

(** ** Component labelling *)

Lemma union_edge_length lab e : length (union_edge lab e) = length lab.
Proof.
  unfold union_edge. destruct (lab !! e.1), (lab !! e.2); try done.
  by rewrite length_fmap.
Qed.

Lemma foldl_union_edge_length l lab : length (foldl union_edge lab l) = length lab.
Proof.
  revert lab. induction l as [|e t IH]; intros lab; simpl; [done|].
  by rewrite IH, union_edge_length.
Qed.

Lemma flood_length n E : length (flood n E) = n.
Proof. unfold flood. by rewrite foldl_union_edge_length, length_seq. Qed.

Lemma union_edge_sound (E : list (nat * nat)) lab e :
  e ∈ E ->
  (∀ i r, lab !! i = Some r -> conn E i r) ->
  ∀ i r, union_edge lab e !! i = Some r -> conn E i r.
Proof.
  intros He Hinv i r. unfold union_edge.
  destruct (lab !! e.1) as [a|] eqn:Ha; [|by apply Hinv].
  destruct (lab !! e.2) as [b|] eqn:Hb; [|by apply Hinv].
  rewrite list_lookup_fmap. destruct (lab !! i) as [r0|] eqn:Hi; [|done].
  intros [= <-]. unfold redirect. case_decide as Hr; [subst r0|by apply Hinv].
  apply (conn_trans _ _ b); [by apply Hinv|].
  apply (conn_trans _ _ e.2); [apply conn_sym; by apply Hinv|].
  apply (conn_trans _ _ e.1); [|by apply Hinv].
  apply conn_sym, conn_edge. by destruct e.
Qed.

Lemma foldl_union_edge_sound (E : list (nat * nat)) l lab :
  l ⊆ E ->
  (∀ i r, lab !! i = Some r -> conn E i r) ->
  ∀ i r, foldl union_edge lab l !! i = Some r -> conn E i r.
Proof.
  revert lab. induction l as [|e t IH]; intros lab Hl Hinv; simpl; [done|].
  apply IH.
  - intros x Hx. apply Hl. by right.
  - apply union_edge_sound; [|done]. apply Hl. by left.
Qed.

(** Nodes with one label are connected. *)
Lemma flood_sound n (E : list (nat * nat)) i j r :
  flood n E !! i = Some r -> flood n E !! j = Some r -> conn E i j.
Proof.
  assert (∀ k s, flood n E !! k = Some s -> conn E k s) as Hinv.
  { apply foldl_union_edge_sound; [done|].
    intros k s [-> _]%lookup_seq. apply conn_refl. }
  intros Hi Hj. eapply conn_trans; [by apply Hinv|]. apply conn_sym. by apply Hinv.
Qed.

Lemma union_edge_preserve lab e u v :
  lab !! u = lab !! v -> union_edge lab e !! u = union_edge lab e !! v.
Proof.
  intros Huv. unfold union_edge.
  destruct (lab !! e.1), (lab !! e.2); try done.
  by rewrite !list_lookup_fmap, Huv.
Qed.

Lemma foldl_union_edge_preserve l lab u v :
  lab !! u = lab !! v -> foldl union_edge lab l !! u = foldl union_edge lab l !! v.
Proof.
  revert lab. induction l as [|e t IH]; intros lab Huv; simpl; [done|].
  by apply IH, union_edge_preserve.
Qed.

Lemma union_edge_joins lab u v :
  u < length lab -> v < length lab ->
  union_edge lab (u, v) !! u = union_edge lab (u, v) !! v.
Proof.
  intros Hu Hv. unfold union_edge. simpl.
  destruct (lookup_lt_is_Some_2 lab u Hu) as [a Ha].
  destruct (lookup_lt_is_Some_2 lab v Hv) as [b Hb].
  rewrite Ha, Hb, !list_lookup_fmap, Ha, Hb. simpl. f_equal.
  unfold redirect. rewrite (decide_True (P := b = b)) by done. by case_decide.
Qed.

Lemma foldl_union_edge_joins l lab u v :
  (u, v) ∈ l -> u < length lab -> v < length lab ->
  foldl union_edge lab l !! u = foldl union_edge lab l !! v.
Proof.
  revert lab. induction l as [|e t IH]; intros lab Hin Hu Hv; simpl.
  - by apply elem_of_nil in Hin.
  - apply elem_of_cons in Hin as [<-|Hin].
    + by apply foldl_union_edge_preserve, union_edge_joins.
    + apply IH; [done|by rewrite union_edge_length..].
Qed.

(** Connected nodes have one label. *)
Lemma flood_complete n (E : list (nat * nat)) i j :
  (∀ e, e ∈ E -> e.1 < n ∧ e.2 < n) ->
  conn E i j -> flood n E !! i = flood n E !! j.
Proof.
  intros Hrange Hc.
  set (R := fun u v : nat => flood n E !! u = flood n E !! v).
  assert (Equivalence R) as HR.
  { split; [by intros ?|by intros ? ?|]. intros x y z Hxy Hyz. unfold R in *. congruence. }
  apply (conn_least R E); [|done].
  intros u v Huv. unfold R, flood.
  destruct (Hrange _ Huv) as [Hu Hv]. simpl in *.
  apply foldl_union_edge_joins; [done|by rewrite length_seq..].
Qed.

Section IndexOf.
Context {A : Type} `{EqDecision A}.

Lemma index_of_lookup (x : A) l : x ∈ l -> l !! index_of x l = Some x.
Proof.
  induction l as [|y t IH]; simpl; [by intros ?%elem_of_nil|].
  intros Hx. case_decide as Hy; [by subst|].
  apply elem_of_cons in Hx as [->|Hx]; [done|]. by apply IH.
Qed.

Lemma index_of_inj (x y : A) l :
  x ∈ l -> y ∈ l -> index_of x l = index_of y l -> x = y.
Proof.
  intros Hx%index_of_lookup Hy%index_of_lookup Heq. rewrite Heq in Hx. congruence.
Qed.

Lemma index_of_lt (x : A) l : x ∈ l -> index_of x l < length l.
Proof. intros Hx%index_of_lookup. by eapply lookup_lt_Some. Qed.

End IndexOf.

(** ** label_regions *)

Lemma object_edges_range shape data e :
  e ∈ object_edges shape data -> e.1 < length data ∧ e.2 < length data.
Proof.
  unfold object_edges. intros [Hs _]%list_elem_of_filter. unfold same_object in Hs.
  destruct (data !! e.1) eqn:H1; [|done]. destruct (data !! e.2) eqn:H2; [|done].
  split; by eapply lookup_lt_Some.
Qed.

Lemma object_edges_label shape data u v :
  (u, v) ∈ object_edges shape data -> data !! u = data !! v.
Proof.
  unfold object_edges. intros [Hs _]%list_elem_of_filter. unfold same_object in Hs.
  simpl in Hs. destruct (data !! u); [|done]. destruct (data !! v); [|done].
  destruct Hs as [-> _]. done.
Qed.

(** The elements of one region carry one label. *)
Lemma object_conn_label shape data i j :
  conn (object_edges shape data) i j -> data !! i = data !! j.
Proof.
  intros Hc. apply (conn_invariant (fun k => data !! k) (object_edges shape data)); [|done].
  intros u v. apply object_edges_label.
Qed.

Lemma label_regions_spec shape data : regions_spec shape data (label_regions shape data).
Proof.
  unfold label_regions.
  set (E := object_edges shape data). set (lab := flood (length data) E).
  set (px := zip data lab).
  set (ids := unique (filter (fun p : Z * nat => p.1 <> 0%Z) px).*2).
  set (cc := _ <$> px).
  assert (Hlab : length lab = length data) by apply flood_length.
  assert (Hcc : ∀ i c, cc !! i = Some c ↔
            ∃ v l, data !! i = Some v ∧ lab !! i = Some l
                   ∧ c = if decide (v = 0%Z) then 0 else S (index_of l ids)).
  { intros i c. unfold cc, px. rewrite list_lookup_fmap. split.
    - destruct (zip data lab !! i) as [[v l]|] eqn:Hp; [|done]. simpl. intros [= <-].
      apply lookup_zip_with_Some in Hp as (v' & l' & [= -> ->] & ? & ?). by exists v', l'.
    - intros (v & l & Hv & Hl & ->).
      assert (zip data lab !! i = Some (v, l)) as ->; [|done].
      apply lookup_zip_with_Some. by exists v, l. }
  assert (Hids : ∀ l, l ∈ ids ↔ ∃ i v, data !! i = Some v ∧ v <> 0%Z ∧ lab !! i = Some l).
  { intros l. unfold ids. rewrite elem_of_unique, list_elem_of_fmap. split.
    - intros ([v l'] & -> & [Hv [i Hi]%list_elem_of_lookup]%list_elem_of_filter).
      apply lookup_zip_with_Some in Hi as (v' & l'' & [= -> ->] & ? & ?). by exists i, v'.
    - intros (i & v & Hv & Hv0 & Hl). exists (v, l). split; [done|].
      apply list_elem_of_filter. split; [done|].
      apply list_elem_of_lookup. exists i. apply lookup_zip_with_Some. by exists v, l. }
  assert (Hndids : NoDup ids) by apply drop_duplicates_id_NoDup.
  split.
  - unfold cc, px. rewrite length_fmap, length_zip_with. lia.
  - intros i. rewrite Hcc. split.
    + intros (v & l & Hv & _ & Hc). by case_decide; simplify_eq.
    + intros Hv. destruct (lookup_lt_is_Some_2 lab i) as [l Hl].
      { rewrite Hlab. by eapply lookup_lt_Some. }
      exists 0%Z, l. by rewrite decide_True.
  - intros i j c (v & l & Hv & Hl & Hc)%Hcc Hc0.
    destruct (decide (v = 0%Z)) as [|Hv0]; [done|].
    assert (l ∈ ids) as Hlin by (apply Hids; by exists i, v).
    rewrite Hcc. split.
    + intros (v' & l' & Hv' & Hl' & Hc').
      destruct (decide (v' = 0%Z)) as [|Hv0']; [congruence|].
      assert (l' ∈ ids) as Hlin' by (apply Hids; by exists j, v').
      assert (l = l') as <-.
      { apply (index_of_inj _ _ ids); [done..|congruence]. }
      by eapply flood_sound.
    + intros Hconn.
      pose proof (flood_complete (length data) E i j (object_edges_range shape data) Hconn)
        as Hll.
      pose proof (object_conn_label _ _ _ _ Hconn) as Hvv.
      exists v, l. fold lab in Hll. split_and!; [congruence|congruence|].
      by rewrite decide_False.
  - exists (length ids). intros c Hc. split.
    + intros [i (v & l & Hv & Hl & ->)%Hcc]%list_elem_of_lookup.
      case_decide; [lia|].
      assert (l ∈ ids) as Hlin by (apply Hids; by exists i, v).
      apply index_of_lt in Hlin. lia.
    + intros Hle. destruct (lookup_lt_is_Some_2 ids (c - 1)) as [l Hl]; [lia|].
      pose proof (list_elem_of_lookup_2 _ _ _ Hl) as Hlin.
      pose proof Hlin as (i & v & Hv & Hv0 & Hli)%Hids.
      apply list_elem_of_lookup. exists i. apply Hcc. exists v, l.
      split_and!; [done..|]. rewrite decide_False by done.
      assert (index_of l ids = c - 1) as ->; [|lia].
      eapply NoDup_lookup; [done|by apply index_of_lookup|done].
Qed.

